(** * Monitor: probe attachment and readout (lava/proc/monitor/process.py)

    A shallow embedding of the [Monitor] process of lava: the constructor
    with [post_init], [probe] and [get_data], as state transformers over a
    record holding the instance attributes and the dictionaries they refer
    to.  Python exceptions are results; mutation that happened before an
    exception is kept in the state that comes with the result. *)

From stdpp Require Import gmap strings list fin_maps pretty.

Local Open Scope Z_scope.
Local Open Scope string_scope.
Local Open Scope list_scope.

(** ** Values of the host language *)

(** Object identities of the dictionaries reachable from [self.data]. *)
Abbreviation loc := nat (only parsing).

(** A numpy array: its shape and its elements in row-major order. *)
Record ndarray := { arr_shape : list Z; arr_data : list Z }.

Definition dim_size (shape : list Z) : nat :=
  foldr (λ d acc, (Z.to_nat d * acc)%nat) 1%nat shape.

(** The array a [Var(shape, init)] holds before anything is written. *)
Definition full (shape : list Z) (init : Z) : ndarray :=
  {| arr_shape := shape; arr_data := repeat init (dim_size shape) |}.

(** What a dictionary slot can hold here: the scalar placeholder, the
    samples read from a buffer, or a reference to another dictionary. *)
Inductive pyval :=
| VInt (z : Z)
| VArray (a : ndarray)
| VRef (l : loc).

(** The exceptions of the methods; [ProbeConnectionFailed] stands for the
    rejection of a binding by the engine. *)
Inductive exn := TypeError | IndexError | KeyError | AttributeError | ProbeConnectionFailed.

Inductive result (A : Type) :=
| Ok (a : A)
| Raise (e : exn).
Arguments Ok {A} a.
Arguments Raise {A} e.

(** ** Targets and the members created for them *)

(** The classes [probe] tells apart with [isinstance]. *)
Inductive TargetKind := KVar | KOutPort | KInPort | KRefPort.

#[global] Instance TargetKind_eq_dec : EqDecision TargetKind.
Proof. solve_decision. Defined.

(** A target as [probe] reads it: [target.shape], [target.process.name],
    [target.name] and its class.  The binding primitives of the engine
    are outside this file and can reject a tap; [connectable] says whether
    the engine accepts a tap on the target at the time of the call, so the
    same process and name can be passed once as connectable and later as
    not. *)
Record Target := {
  kind : TargetKind;
  shape : list Z;
  process_name : string;
  name : string;
  connectable : bool
}.

(** Dynamic attributes of the Monitor set with [setattr]. *)
Inductive Member :=
| RefPort (sh : list Z) (conn : list Target)
| InPort (sh : list Z) (conn : list Target)
| Var (sh : list Z) (init : Z) (value : ndarray).

Definition new_RefPort (sh : list Z) : Member := RefPort sh [].
Definition new_InPort (sh : list Z) : Member := InPort sh [].
Definition new_Var (sh : list Z) (init : Z) : Member := Var sh init (full sh init).

(** ** The Monitor instance *)

Record ProcParams := {
  RefPorts : list string;
  VarsData1 : list string;
  InPorts : list string;
  VarsData2 : list string;
  n_ref_ports : nat;
  n_in_ports : nat
}.

Record Monitor := {
  data : loc;                                   (* self.data *)
  proc_params : ProcParams;                     (* self.proc_params *)
  target_names : gmap string (string * string); (* self.target_names *)
  new_ref_port_name : string;
  new_var_read_name : string;
  new_in_port_name : string;
  new_out_read_name : string;
  members : gmap string Member;                 (* setattr / getattr *)
  heap : gmap loc (gmap string pyval);          (* the dict objects *)
  next_loc : loc                                (* next fresh identity *)
}.

Definition with_proc_params (p : ProcParams) (m : Monitor) : Monitor :=
  {| data := data m; proc_params := p; target_names := target_names m;
     new_ref_port_name := new_ref_port_name m;
     new_var_read_name := new_var_read_name m;
     new_in_port_name := new_in_port_name m;
     new_out_read_name := new_out_read_name m;
     members := members m; heap := heap m; next_loc := next_loc m |}.

Definition with_target_names (t : gmap string (string * string)) (m : Monitor) : Monitor :=
  {| data := data m; proc_params := proc_params m; target_names := t;
     new_ref_port_name := new_ref_port_name m;
     new_var_read_name := new_var_read_name m;
     new_in_port_name := new_in_port_name m;
     new_out_read_name := new_out_read_name m;
     members := members m; heap := heap m; next_loc := next_loc m |}.

Definition with_new_names (r v i o : string) (m : Monitor) : Monitor :=
  {| data := data m; proc_params := proc_params m; target_names := target_names m;
     new_ref_port_name := r;
     new_var_read_name := v;
     new_in_port_name := i;
     new_out_read_name := o;
     members := members m; heap := heap m; next_loc := next_loc m |}.

Definition with_members (a : gmap string Member) (m : Monitor) : Monitor :=
  {| data := data m; proc_params := proc_params m; target_names := target_names m;
     new_ref_port_name := new_ref_port_name m;
     new_var_read_name := new_var_read_name m;
     new_in_port_name := new_in_port_name m;
     new_out_read_name := new_out_read_name m;
     members := a; heap := heap m; next_loc := next_loc m |}.

Definition with_heap (h : gmap loc (gmap string pyval)) (n : loc) (m : Monitor) : Monitor :=
  {| data := data m; proc_params := proc_params m; target_names := target_names m;
     new_ref_port_name := new_ref_port_name m;
     new_var_read_name := new_var_read_name m;
     new_in_port_name := new_in_port_name m;
     new_out_read_name := new_out_read_name m;
     members := members m; heap := h; next_loc := n |}.

(** ** A state and exception monad for the method bodies *)

Definition M (A : Type) : Type := Monitor → result A * Monitor.

Definition ret {A} (a : A) : M A := λ m, (Ok a, m).
Definition raise {A} (e : exn) : M A := λ m, (Raise e, m).
Definition bind {A B} (c : M A) (k : A → M B) : M B :=
  λ m, match c m with
       | (Ok a, m') => k a m'
       | (Raise e, m') => (Raise e, m')
       end.
Definition gets {A} (f : Monitor → A) : M A := λ m, (Ok (f m), m).
Definition modify (f : Monitor → Monitor) : M unit := λ m, (Ok tt, f m).

Declare Scope py_scope.
Delimit Scope py_scope with py.
Notation "x <- c ;; k" := (bind c (λ x, k))
  (at level 100, c at next level, right associativity) : py_scope.
Notation "c ;; k" := (bind c (λ _, k))
  (at level 100, right associativity) : py_scope.
Local Open Scope py_scope.

(** [for x in xs: body x] *)
Fixpoint for_each {A} (xs : list A) (body : A → M unit) : M unit :=
  match xs with
  | [] => ret tt
  | x :: xs' => body x ;; for_each xs' body
  end.

(** ** Primitive operations of the host language *)

(** [str(n)] on a non-negative int *)
Definition str (n : nat) : string := pretty n.

(** [xs[i]] on a tuple or list *)
Definition getitem {A} (xs : list A) (i : nat) : M A :=
  match xs !! i with
  | Some x => ret x
  | None => raise IndexError
  end.

(** [setattr(self, name, obj)] *)
Definition setattr (nm : string) (obj : Member) : M unit :=
  modify (λ m, with_members (<[nm := obj]> (members m)) m).

(** [getattr(self, name)] *)
Definition getattr (nm : string) : M Member :=
  a <- gets members ;;
  match a !! nm with
  | Some obj => ret obj
  | None => raise AttributeError
  end.

(** [{}]: a fresh empty dictionary object *)
Definition new_dict : M loc :=
  l <- gets next_loc ;;
  modify (λ m, with_heap (<[l := ∅]> (heap m)) (S l) m) ;;
  ret l.

(** [d[k]] *)
Definition dict_getitem (d : loc) (k : string) : M pyval :=
  h <- gets heap ;;
  match h !! d with
  | Some o =>
      match o !! k with
      | Some v => ret v
      | None => raise KeyError
      end
  | None => raise TypeError
  end.

(** [d[k] = v] *)
Definition dict_setitem (d : loc) (k : string) (v : pyval) : M unit :=
  h <- gets heap ;;
  match h !! d with
  | Some o => modify (λ m, with_heap (<[d := <[k := v]> o]> (heap m)) (next_loc m) m)
  | None => raise TypeError
  end.

(** [d[k1][k2] = v] with the value [v] already evaluated *)
Definition dict_setitem2 (d : loc) (k1 k2 : string) (v : pyval) : M unit :=
  inner <- dict_getitem d k1 ;;
  match inner with
  | VRef l => dict_setitem l k2 v
  | _ => raise TypeError
  end.

(** ** Collaborators of the Monitor the source only calls *)

(** Modelled from the spec: [Var.get], the "read current value" accessor of
    a data-storing Var, is defined outside this file.  It returns the
    array the buffer holds at the moment of the call; on an attribute that
    is not a Var there is no such method. *)
Definition Var_get (obj : Member) : M ndarray :=
  match obj with
  | Var _ _ value => ret value
  | _ => raise AttributeError
  end.

(** Modelled from the spec: [RefPort.connect_var], defined outside this
    file, binds the tap to the target or is rejected by the engine; a
    rejection raises and leaves the port as it is. *)
Definition connect_var (nm : string) (target : Target) : M unit :=
  port <- getattr nm ;;
  match port with
  | RefPort sh conn =>
      if connectable target
      then setattr nm (RefPort sh (conn ++ [target]))
      else raise ProbeConnectionFailed
  | _ => raise AttributeError
  end.

(** Modelled from the spec: [InPort.connect_from], as [connect_var]. *)
Definition connect_from (nm : string) (target : Target) : M unit :=
  port <- getattr nm ;;
  match port with
  | InPort sh conn =>
      if connectable target
      then setattr nm (InPort sh (conn ++ [target]))
      else raise ProbeConnectionFailed
  | _ => raise AttributeError
  end.

(** Modelled from the spec: the engine mirrors the target into the sample
    buffer during execution; between two calls of the Monitor it may have
    replaced the content of any data-storing Var. *)
Definition engine_write (nm : string) (a : ndarray) (m : Monitor) : Monitor :=
  match members m !! nm with
  | Some (Var sh init _) => with_members (<[nm := Var sh init a]> (members m)) m
  | _ => m
  end.

(** ** Updates of [self.proc_params] *)

Definition append_names (r v i o : string) (p : ProcParams) : ProcParams :=
  {| RefPorts := RefPorts p ++ [r];
     VarsData1 := VarsData1 p ++ [v];
     InPorts := InPorts p ++ [i];
     VarsData2 := VarsData2 p ++ [o];
     n_ref_ports := n_ref_ports p;
     n_in_ports := n_in_ports p |}.

Definition incr_n_ref_ports (p : ProcParams) : ProcParams :=
  {| RefPorts := RefPorts p; VarsData1 := VarsData1 p;
     InPorts := InPorts p; VarsData2 := VarsData2 p;
     n_ref_ports := S (n_ref_ports p);
     n_in_ports := n_in_ports p |}.

Definition incr_n_in_ports (p : ProcParams) : ProcParams :=
  {| RefPorts := RefPorts p; VarsData1 := VarsData1 p;
     InPorts := InPorts p; VarsData2 := VarsData2 p;
     n_ref_ports := n_ref_ports p;
     n_in_ports := S (n_in_ports p) |}.

(** ** The methods of [Monitor] *)

(** ["ref_port_" + str(k)] and its three siblings. *)
Definition ref_port_ (k : nat) : string := "ref_port_" +:+ str k.
Definition var_read_ (k : nat) : string := "var_read_" +:+ str k.
Definition in_port_ (k : nat) : string := "in_port_" +:+ str k.
Definition out_read_ (k : nat) : string := "out_read_" +:+ str k.

(** The four names built from the two counters, at the head of both
    [post_init] and [probe]. *)
Definition make_names : M unit :=
  p <- gets proc_params ;;
  modify (with_new_names (ref_port_ (n_ref_ports p))
                         (var_read_ (n_ref_ports p))
                         (in_port_ (n_in_ports p))
                         (out_read_ (n_in_ports p))).

(** [post_init]: one prototypical RefPort, InPort and two Vars of shape
    [(1,)].  The registration of the attributes in the process's member
    collections copies what [members] already holds. *)
Definition post_init : M unit :=
  make_names ;;
  r <- gets new_ref_port_name ;; setattr r (new_RefPort [1]) ;;
  v <- gets new_var_read_name ;; setattr v (new_Var [1] 0) ;;
  i <- gets new_in_port_name ;; setattr i (new_InPort [1]) ;;
  o <- gets new_out_read_name ;; setattr o (new_Var [1] 0).

(** The instance right after [self.data = {}] ... [self.target_names = {}],
    before [post_init] runs. *)
Definition blank : Monitor :=
  {| data := 0%nat;
     proc_params := {| RefPorts := []; VarsData1 := []; InPorts := [];
                       VarsData2 := []; n_ref_ports := 0; n_in_ports := 0 |};
     target_names := ∅;
     new_ref_port_name := ""; new_var_read_name := "";
     new_in_port_name := ""; new_out_read_name := "";
     members := ∅;
     heap := {[ 0%nat := ∅ ]};
     next_loc := 1%nat |}.

(** [Monitor()] *)
Definition init : Monitor := snd (post_init blank).

(** [probe(target, num_steps)] *)
Definition probe (target : Target) (num_steps : Z) : M unit :=
  make_names ;;
  (* new RefPort and the Var that stores its data *)
  r <- gets new_ref_port_name ;;
  setattr r (new_RefPort (shape target)) ;;
  v <- gets new_var_read_name ;;
  d0 <- getitem (shape target) 0 ;;
  setattr v (new_Var [d0; num_steps] 0) ;;
  (* new InPort and the Var that stores its data *)
  i <- gets new_in_port_name ;;
  setattr i (new_InPort (shape target)) ;;
  o <- gets new_out_read_name ;;
  d0' <- getitem (shape target) 0 ;;
  setattr o (new_Var [d0'; num_steps] 0) ;;
  (* the names go to proc_params *)
  modify (λ m, with_proc_params (append_names r v i o (proc_params m)) m) ;;
  (* registration of the new Vars/Ports: as in post_init, [members] holds them *)
  match kind target with
  | KVar =>
      modify (λ m, with_proc_params (incr_n_ref_ports (proc_params m)) m) ;;
      connect_var r target ;;
      modify (λ m, with_target_names
                     (<[v := (process_name target, name target)]> (target_names m)) m)
  | KOutPort =>
      modify (λ m, with_proc_params (incr_n_in_ports (proc_params m)) m) ;;
      connect_from i target ;;
      modify (λ m, with_target_names
                     (<[o := (process_name target, name target)]> (target_names m)) m)
  | _ => raise TypeError
  end ;;
  (* dict keys for the monitored Var/OutPort and its process *)
  d <- gets data ;;
  fresh <- new_dict ;;
  dict_setitem d (process_name target) (VRef fresh) ;;
  dict_setitem2 d (process_name target) (name target) (VInt 0).

(** One round of either loop of [get_data]: [names] selects ["VarsData2"]
    or ["VarsData1"]. *)
Definition fetch (names : ProcParams → list string) (i : nat) : M unit :=
  p <- gets proc_params ;;
  data_var_name <- getitem (names p) i ;;
  data_var <- getattr data_var_name ;;
  tn <- gets target_names ;;
  match tn !! data_var_name with
  | None => raise KeyError
  | Some target_name =>
      samples <- Var_get data_var ;;
      d <- gets data ;;
      dict_setitem2 d (fst target_name) (snd target_name) (VArray samples)
  end.

(** [get_data()]: the returned value is [self.data] itself. *)
Definition get_data : M loc :=
  p <- gets proc_params ;;
  for_each (seq 0 (n_in_ports p)) (fetch VarsData2) ;;
  for_each (seq 0 (n_ref_ports p)) (fetch VarsData1) ;;
  gets data.

(** ** Running calls in sequence and reading results *)

(** A series of [probe] calls, stopping at the first that raises. *)
Fixpoint probes (calls : list (Target * Z)) : M unit :=
  match calls with
  | [] => ret tt
  | (t, n) :: rest => probe t n ;; probes rest
  end.

(** The states after each call of a series (all calls are made, a raising
    one leaves the state it reached). *)
Fixpoint trace (calls : list (Target * Z)) (m : Monitor) : list Monitor :=
  match calls with
  | [] => []
  | (t, n) :: rest => let m' := snd (probe t n m) in m' :: trace rest m'
  end.

(** [d[owner][entity]] read through the dictionary object [d], as a caller
    holding [d] sees it in state [m]. *)
Definition lookup2 (m : Monitor) (d : loc) (owner entity : string) : option pyval :=
  match heap m !! d with
  | Some outer =>
      match outer !! owner with
      | Some (VRef l) =>
          match heap m !! l with
          | Some inner => inner !! entity
          | None => None
          end
      | _ => None
      end
  | None => None
  end.

(** What can happen to a Monitor between two observations: a probe call
    (successful or not), a write of the engine into a buffer, a readout. *)
Inductive step : Monitor → Monitor → Prop :=
| step_probe m t n : step m (snd (probe t n m))
| step_write m nm a : step m (engine_write nm a m)
| step_get_data m : step m (snd (get_data m)).

(** The states a Monitor can be in after it was built. *)
Definition reachable (m : Monitor) : Prop := rtc step init m.

(** The two counters of an instance. *)
Abbreviation n_ref m := (n_ref_ports (proc_params m)).
Abbreviation n_in m := (n_in_ports (proc_params m)).

(** The four attributes every [probe] call sets before it looks at the
    class of the target; [d0] is [target.shape[0]]. *)
Definition members_set (m : Monitor) (t : Target) (num_steps d0 : Z) : gmap string Member :=
  let nr := n_ref_ports (proc_params m) in
  let ni := n_in_ports (proc_params m) in
  <[out_read_ ni := new_Var [d0; num_steps] 0]>
    (<[in_port_ ni := new_InPort (shape t)]>
       (<[var_read_ nr := new_Var [d0; num_steps] 0]>
          (<[ref_port_ nr := new_RefPort (shape t)]> (members m)))).

(** The dictionaries after the two assignments to [self.data] that end a
    successful [probe]; [outer] is the content of [self.data] before. *)
Definition heap_set (m : Monitor) (t : Target) (outer : gmap string pyval)
  : gmap loc (gmap string pyval) :=
  <[next_loc m := {[ name t := VInt 0 ]}]>
    (<[data m := <[process_name t := VRef (next_loc m)]> outer]>
       (<[next_loc m := ∅]> (heap m))).


(** ** The readout, one buffer at a time *)

(** One round of a loop of [get_data] without the state: the exception
    the body raises, in the order the body can raise, or the owner, the
    inner dictionary, the entity and the samples it stores. *)
Definition fetch_outcome (names : ProcParams → list string) (i : nat) (m : Monitor)
  : exn + (string * loc * string * ndarray) :=
  match names (proc_params m) !! i with
  | None => inl IndexError
  | Some nm =>
      match members m !! nm with
      | None => inl AttributeError
      | Some obj =>
          match target_names m !! nm with
          | None => inl KeyError
          | Some tn =>
              match obj with
              | Var _ _ value =>
                  match heap m !! data m with
                  | None => inl TypeError
                  | Some outer =>
                      match outer !! tn.1 with
                      | None => inl KeyError
                      | Some (VRef l) =>
                          match heap m !! l with
                          | Some _ => inr (tn.1, l, tn.2, value)
                          | None => inl TypeError
                          end
                      | Some _ => inl TypeError
                      end
                  end
              | _ => inl AttributeError
              end
          end
      end
  end.

(** The store a completed round makes. *)
Definition upd_of (x : string * loc * string * ndarray) : loc * string * ndarray :=
  (x.1.1.2, x.1.2, x.2).

(** [inner[entity] = samples] on the dictionary objects. *)
Definition store (h : gmap loc (gmap string pyval)) (u : loc * string * ndarray)
  : gmap loc (gmap string pyval) :=
  <[u.1.1 := <[u.1.2 := VArray u.2]> (default ∅ (h !! u.1.1))]> h.

(** A loop up to its first round that raises: the exception, if any, and
    what the rounds before it gave. *)
Fixpoint run_loop {A B E : Type} (f : A → E + B) (l : list A) : option E * list B :=
  match l with
  | [] => (None, [])
  | x :: l' =>
      match f x with
      | inl e => (Some e, [])
      | inr y => let r := run_loop f l' in (r.1, y :: r.2)
      end
  end.

(** The two loops of [get_data]: the OutPort buffers first, then, if that
    loop came to its end, the Var buffers. *)
Definition readout (m : Monitor) : option exn * list (string * loc * string * ndarray) :=
  let r2 := run_loop (λ i, fetch_outcome VarsData2 i m) (seq 0 (n_in m)) in
  match r2.1 with
  | Some e => r2
  | None =>
      let r1 := run_loop (λ i, fetch_outcome VarsData1 i m) (seq 0 (n_ref m)) in
      (r1.1, r2.2 ++ r1.2)
  end.

(** ** Invariants of the instance *)

Definition is_Var (o : option Member) : Prop :=
  ∃ sh init value, o = Some (Var sh init value).

(** [self.data[owner]] is a dictionary. *)
Definition has_owner (m : Monitor) (owner : string) : Prop :=
  ∃ outer l, heap m !! data m = Some outer ∧ outer !! owner = Some (VRef l).

(** The dictionaries: [self.data] exists, its values are references to
    existing inner dictionaries other than itself, and identities not yet
    handed out are unused. *)
Definition heap_ok (m : Monitor) : Prop :=
  (data m < next_loc m)%nat ∧
  (∀ l, is_Some (heap m !! l) → (l < next_loc m)%nat) ∧
  ∃ outer, heap m !! data m = Some outer ∧
    ∀ o v, outer !! o = Some v →
      ∃ l, v = VRef l ∧ l ≠ data m ∧ is_Some (heap m !! l).

(** One family of buffers: the list of names is at least as long as the
    counter, the name at position [i] carries an index no larger than [i],
    and every index below the counter names a Var. *)
Definition buffers_ok (m : Monitor) (names : list string) (nm_ : nat → string)
    (cnt : nat) : Prop :=
  (cnt ≤ length names)%nat ∧
  (∀ i nm, names !! i = Some nm → ∃ k, nm = nm_ k ∧ (k ≤ i)%nat ∧ (k ≤ cnt)%nat) ∧
  (∀ k, (k < cnt)%nat → is_Var (members m !! nm_ k)).

(** Every entry of [target_names] names a process that has a dictionary
    in [self.data]. *)
Definition registered_ok (m : Monitor) : Prop :=
  ∀ nm o e, target_names m !! nm = Some (o, e) → has_owner m o.

Definition Inv (m : Monitor) : Prop :=
  heap_ok m ∧
  buffers_ok m (VarsData1 (proc_params m)) var_read_ (n_ref m) ∧
  buffers_ok m (VarsData2 (proc_params m)) out_read_ (n_in m) ∧
  registered_ok m.

(** ** Vocabulary of the properties *)

(** Counter/list alignment: each registry list is as long as the counter
    of its kind. *)
Definition aligned (m : Monitor) : Prop :=
  length (RefPorts (proc_params m)) = n_ref m ∧
  length (VarsData1 (proc_params m)) = n_ref m ∧
  length (InPorts (proc_params m)) = n_in m ∧
  length (VarsData2 (proc_params m)) = n_in m.

(** Both counters and the four registry lists of [m'] are those of [m]. *)
Definition registry_unchanged (m m' : Monitor) : Prop :=
  n_ref m' = n_ref m ∧ n_in m' = n_in m ∧
  RefPorts (proc_params m') = RefPorts (proc_params m) ∧
  VarsData1 (proc_params m') = VarsData1 (proc_params m) ∧
  InPorts (proc_params m') = InPorts (proc_params m) ∧
  VarsData2 (proc_params m') = VarsData2 (proc_params m).

(** The four names a call generated, read from the state it left. *)
Definition names_of (m : Monitor) : list string :=
  [new_ref_port_name m; new_var_read_name m; new_in_port_name m; new_out_read_name m].

(** All names generated during a series of calls. *)
Definition generated_names (calls : list (Target * Z)) (m : Monitor) : list string :=
  concat (names_of <$> trace calls m).

(** The tap and the buffer a call bound to its target: the names the
    branch taken in [probe] connects and enters in [target_names]. *)
Definition probe_names (m' : Monitor) (t : Target) : list string :=
  match kind t with
  | KVar => [new_ref_port_name m'; new_var_read_name m']
  | KOutPort => [new_in_port_name m'; new_out_read_name m']
  | _ => []
  end.

Definition attached_names (calls : list (Target * Z)) (m : Monitor) : list string :=
  concat (zip_with (λ c m', probe_names m' c.1) calls (trace calls m)).

(** The numbering the naming scheme promises: a probe of a Var gets the
    number of Var probes before it, a probe of an OutPort the number of
    OutPort probes before it; [nv] and [no] are the numbers to start from. *)
Fixpoint numbered (calls : list (Target * Z)) (nv no : nat) : list string :=
  match calls with
  | [] => []
  | (t, _) :: rest =>
      match kind t with
      | KVar => ref_port_ nv :: var_read_ nv :: numbered rest (S nv) no
      | KOutPort => in_port_ no :: out_read_ no :: numbered rest nv (S no)
      | _ => numbered rest nv no
      end
  end.

(** A call [probe] accepts: a Var or an OutPort with at least one dimension. *)
Definition supported (c : Target * Z) : Prop :=
  (kind c.1 = KVar ∨ kind c.1 = KOutPort) ∧ shape c.1 ≠ [].

(** The targets of one kind among the calls, in the order of the calls. *)
Definition targets_of (k : TargetKind) (calls : list (Target * Z)) : list Target :=
  filter (λ t, kind t = k) (calls.*1).

(** The name of the sample buffer of a probe, read from the state the
    call left. *)
Definition probe_buffer (m' : Monitor) (t : Target) : string :=
  match kind t with
  | KVar => new_var_read_name m'
  | _ => new_out_read_name m'
  end.

(** No port of the kind the target does not need came into being or
    changed between [m] and [m']. *)
Definition other_kind_untouched (m m' : Monitor) (t : Target) : Prop :=
  match kind t with
  | KVar => ∀ nm sh c, members m' !! nm = Some (InPort sh c) →
                       members m !! nm = Some (InPort sh c)
  | KOutPort => ∀ nm sh c, members m' !! nm = Some (RefPort sh c) →
                           members m !! nm = Some (RefPort sh c)
  | _ => True
  end.

(** ** Concrete targets used in the executions below *)

Definition mkTarget (k : TargetKind) (p e : string) (sh : list Z) : Target :=
  {| kind := k; shape := sh; process_name := p; name := e; connectable := true |}.

Definition var_A_u : Target := mkTarget KVar "A" "u" [4].
Definition var_A_v : Target := mkTarget KVar "A" "v" [4].
Definition var_C_v : Target := mkTarget KVar "C" "v" [2].
Definition out_B_s : Target := mkTarget KOutPort "B" "s_out" [2].
Definition out_A_s : Target := mkTarget KOutPort "A" "s_out" [4].
Definition in_B_a : Target := mkTarget KInPort "B" "a_in" [1].

(** Six samples the engine wrote into a buffer of shape [(2, 3)]. *)
Definition six_samples : ndarray := {| arr_shape := [2; 3]; arr_data := [1; 2; 3; 4; 5; 6] |}.

(** ** Further vocabulary: outcomes, the registry, the readout *)

(** The outcome of [probe] read off its body: [target.shape[0]] is
    evaluated before the class of the target is looked at, and the
    binding is the last step that can raise. *)
Definition expected_result (t : Target) : result unit :=
  match shape t with
  | [] => Raise IndexError
  | _ :: _ =>
      match kind t with
      | KVar | KOutPort =>
          if connectable t then Ok tt else Raise ProbeConnectionFailed
      | _ => Raise TypeError
      end
  end.

Definition in_B_scalar : Target := mkTarget KInPort "B" "a_in" [].

(** The Var ["u"] of process ["A"] at a time the engine rejects a tap on
    it, and a Var of another process. *)
Definition var_A_u_busy : Target :=
  {| kind := KVar; shape := [4]; process_name := "A"; name := "u";
     connectable := false |}.
Definition var_D_w : Target := mkTarget KVar "D" "w" [2].

(** The keys of [target_names]: buffer names of indices below the two
    counters, and no more of them than the counters add up to. *)
Definition index_keys (m : Monitor) : Prop :=
  (∀ nm, is_Some (target_names m !! nm) →
     (∃ k, (k < n_ref m)%nat ∧ nm = var_read_ k) ∨
     (∃ k, (k < n_in m)%nat ∧ nm = out_read_ k)) ∧
  (size (target_names m) ≤ n_ref m + n_in m)%nat.

(** The four registry lists as one table: equal lengths, and row [i] holds
    the four names of one call, the numbers [k] and [j] it carries being
    bounded by the counters and by the row number. *)
Definition registry_rows (m : Monitor) : Prop :=
  let p := proc_params m in
  length (VarsData1 p) = length (RefPorts p) ∧
  length (InPorts p) = length (RefPorts p) ∧
  length (VarsData2 p) = length (RefPorts p) ∧
  (n_ref m + n_in m ≤ length (RefPorts p))%nat ∧
  ∀ i, (i < length (RefPorts p))%nat →
    ∃ k j, RefPorts p !! i = Some (ref_port_ k) ∧
           VarsData1 p !! i = Some (var_read_ k) ∧
           InPorts p !! i = Some (in_port_ j) ∧
           VarsData2 p !! i = Some (out_read_ j) ∧
           (k + j ≤ i)%nat ∧ (k ≤ n_ref m)%nat ∧ (j ≤ n_in m)%nat.

(** Every entry of [target_names] stands for one attached probe: a port
    of the kind, shaped as its target and connected to it alone, a buffer
    whose first dimension is the target's, and the entry names the
    target.  An index below a counter without an entry is one whose
    binding was rejected: its port is connected to nothing. *)
Definition attached_ok (m : Monitor) : Prop :=
  (∀ k, (k < n_ref m)%nat →
     match target_names m !! var_read_ k with
     | Some oe =>
         ∃ t d0 n a,
           kind t = KVar ∧ shape t !! 0%nat = Some d0 ∧
           members m !! ref_port_ k = Some (RefPort (shape t) [t]) ∧
           members m !! var_read_ k = Some (Var [d0; n] 0 a) ∧
           oe = (process_name t, name t)
     | None => ∃ sh, members m !! ref_port_ k = Some (RefPort sh [])
     end) ∧
  (∀ k, (k < n_in m)%nat →
     match target_names m !! out_read_ k with
     | Some oe =>
         ∃ t d0 n a,
           kind t = KOutPort ∧ shape t !! 0%nat = Some d0 ∧
           members m !! in_port_ k = Some (InPort (shape t) [t]) ∧
           members m !! out_read_ k = Some (Var [d0; n] 0 a) ∧
           oe = (process_name t, name t)
     | None => ∃ sh, members m !! in_port_ k = Some (InPort sh [])
     end).

(** Two processes never share an inner dictionary. *)
Definition owners_apart (m : Monitor) : Prop :=
  ∀ outer o o' l,
    heap m !! data m = Some outer →
    outer !! o = Some (VRef l) → outer !! o' = Some (VRef l) → o = o'.

(** The owner, the entity and the samples of the rounds a readout
    completes, in the order [get_data] runs them: the OutPort buffers
    first, then the Var buffers, up to the first round that raises. *)
Definition rounds (m : Monitor) : list (string * string * ndarray) :=
  (λ x, (x.1.1.1, x.1.2, x.2)) <$> (readout m).2.

(** The samples of the last round for [(owner, entity)], if there is one. *)
Definition last_for (owner entity : string) (rs : list (string * string * ndarray))
  : option ndarray :=
  foldl (λ acc r, if decide (r.1.1 = owner ∧ r.1.2 = entity) then Some r.2 else acc)
        None rs.

(** The same for stores into the dictionary objects. *)
Definition last_at (l : loc) (entity : string) (us : list (loc * string * ndarray))
  : option ndarray :=
  foldl (λ acc u, if decide (u.1.1 = l ∧ u.1.2 = entity) then Some u.2 else acc)
        None us.





(** The dynamic attributes follow the naming scheme: each is named by one
    of the four families with a number not above the counter of its kind,
    and is a port or a Var as its family says. *)
Definition members_named (m : Monitor) : Prop :=
  ∀ nm obj, members m !! nm = Some obj →
    (∃ k sh c, (k ≤ n_ref m)%nat ∧ nm = ref_port_ k ∧ obj = RefPort sh c) ∨
    (∃ k sh i a, (k ≤ n_ref m)%nat ∧ nm = var_read_ k ∧ obj = Var sh i a) ∨
    (∃ k sh c, (k ≤ n_in m)%nat ∧ nm = in_port_ k ∧ obj = InPort sh c) ∨
    (∃ k sh i a, (k ≤ n_in m)%nat ∧ nm = out_read_ k ∧ obj = Var sh i a).
(** ** Facts about the generated names *)

Lemma str_inj a b : str a = str b → a = b.
Proof. unfold str. apply (inj pretty). Qed.

Lemma ref_port_inj a b : ref_port_ a = ref_port_ b → a = b.
Proof. unfold ref_port_. intros H. apply str_inj. by simplify_eq. Qed.

Lemma var_read_inj a b : var_read_ a = var_read_ b → a = b.
Proof. unfold var_read_. intros H. apply str_inj. by simplify_eq. Qed.

Lemma in_port_inj a b : in_port_ a = in_port_ b → a = b.
Proof. unfold in_port_. intros H. apply str_inj. by simplify_eq. Qed.

Lemma out_read_inj a b : out_read_ a = out_read_ b → a = b.
Proof. unfold out_read_. intros H. apply str_inj. by simplify_eq. Qed.

(** Names of different families differ in their first letter. *)
Lemma names_apart a b :
  ref_port_ a ≠ var_read_ b ∧ ref_port_ a ≠ in_port_ b ∧
  ref_port_ a ≠ out_read_ b ∧ var_read_ a ≠ in_port_ b ∧
  var_read_ a ≠ out_read_ b ∧ in_port_ a ≠ out_read_ b.
Proof. unfold ref_port_, var_read_, in_port_, out_read_. repeat split; discriminate. Qed.

Lemma ref_var a b : ref_port_ a ≠ var_read_ b. Proof. apply names_apart. Qed.
Lemma ref_in a b : ref_port_ a ≠ in_port_ b. Proof. apply (names_apart a b). Qed.
Lemma ref_out a b : ref_port_ a ≠ out_read_ b. Proof. apply (names_apart a b). Qed.
Lemma var_in a b : var_read_ a ≠ in_port_ b. Proof. apply (names_apart a b). Qed.
Lemma var_out a b : var_read_ a ≠ out_read_ b. Proof. apply (names_apart a b). Qed.
Lemma in_out a b : in_port_ a ≠ out_read_ b. Proof. apply (names_apart a b). Qed.
Lemma var_ref a b : var_read_ a ≠ ref_port_ b. Proof. intros H. by apply (ref_var b a). Qed.
Lemma in_ref a b : in_port_ a ≠ ref_port_ b. Proof. intros H. by apply (ref_in b a). Qed.
Lemma out_ref a b : out_read_ a ≠ ref_port_ b. Proof. intros H. by apply (ref_out b a). Qed.
Lemma in_var a b : in_port_ a ≠ var_read_ b. Proof. intros H. by apply (var_in b a). Qed.
Lemma out_var a b : out_read_ a ≠ var_read_ b. Proof. intros H. by apply (var_out b a). Qed.
Lemma out_in a b : out_read_ a ≠ in_port_ b. Proof. intros H. by apply (in_out b a). Qed.

Create HintDb names discriminated.
#[export] Hint Resolve ref_var ref_in ref_out var_in var_out in_out
  var_ref in_ref out_ref in_var out_var out_in : names.

(** ** The two successful paths of [probe] and its failures, in closed form *)

(** Unfold the monad and compute as far as the state is known. *)
Ltac run :=
  repeat (cbv beta delta [make_names bind gets modify setattr getitem connect_var
            connect_from getattr new_dict dict_setitem2 dict_getitem dict_setitem
            Var_get ret raise] iota;
          simpl).

Section probe_paths.
Variable m : Monitor.
Variables (t : Target) (num_steps : Z).

Lemma probe_Var d0 sh outer :
  kind t = KVar → shape t = d0 :: sh → connectable t = true →
  heap m !! data m = Some outer → (data m < next_loc m)%nat →
  probe t num_steps m =
    (Ok tt,
     {| data := data m;
        proc_params := incr_n_ref_ports
          (append_names (ref_port_ (n_ref m)) (var_read_ (n_ref m)) (in_port_ (n_in m)) (out_read_ (n_in m))
             (proc_params m));
        target_names := <[var_read_ (n_ref m) := (process_name t, name t)]> (target_names m);
        new_ref_port_name := ref_port_ (n_ref m);
        new_var_read_name := var_read_ (n_ref m);
        new_in_port_name := in_port_ (n_in m);
        new_out_read_name := out_read_ (n_in m);
        members := <[ref_port_ (n_ref m) := RefPort (shape t) [t]]> (members_set m t num_steps d0);
        heap := heap_set m t outer;
        next_loc := S (next_loc m) |}).
Proof.
  intros Hk Hs Hc Hd Hlt.
  unfold probe, connect_var, members_set, heap_set. rewrite Hk, Hs, Hc. run.
  rewrite !lookup_insert_ne by auto with names.
  rewrite lookup_insert_eq. run.
  rewrite lookup_insert_ne by lia. rewrite Hd. run.
  rewrite lookup_insert_eq. run. rewrite lookup_insert_eq. run.
  rewrite lookup_insert_ne by lia. rewrite lookup_insert_eq. run.
  by rewrite insert_empty.
Qed.

Lemma probe_OutPort d0 sh outer :
  kind t = KOutPort → shape t = d0 :: sh → connectable t = true →
  heap m !! data m = Some outer → (data m < next_loc m)%nat →
  probe t num_steps m =
    (Ok tt,
     {| data := data m;
        proc_params := incr_n_in_ports
          (append_names (ref_port_ (n_ref m)) (var_read_ (n_ref m)) (in_port_ (n_in m)) (out_read_ (n_in m))
             (proc_params m));
        target_names := <[out_read_ (n_in m) := (process_name t, name t)]> (target_names m);
        new_ref_port_name := ref_port_ (n_ref m);
        new_var_read_name := var_read_ (n_ref m);
        new_in_port_name := in_port_ (n_in m);
        new_out_read_name := out_read_ (n_in m);
        members := <[in_port_ (n_in m) := InPort (shape t) [t]]> (members_set m t num_steps d0);
        heap := heap_set m t outer;
        next_loc := S (next_loc m) |}).
Proof.
  intros Hk Hs Hc Hd Hlt.
  unfold probe, connect_from, members_set, heap_set. rewrite Hk, Hs, Hc. run.
  rewrite !lookup_insert_ne by auto with names.
  rewrite lookup_insert_eq. run.
  rewrite lookup_insert_ne by lia. rewrite Hd. run.
  rewrite lookup_insert_eq. run. rewrite lookup_insert_eq. run.
  rewrite lookup_insert_ne by lia. rewrite lookup_insert_eq. run.
  by rewrite insert_empty.
Qed.

(** A Var whose binding the engine rejects: the exception comes after the
    counter was advanced and before [target_names] and [self.data] are
    written. *)
Lemma probe_Var_rejected d0 sh :
  kind t = KVar → shape t = d0 :: sh → connectable t = false →
  probe t num_steps m =
    (Raise ProbeConnectionFailed,
     {| data := data m;
        proc_params := incr_n_ref_ports
          (append_names (ref_port_ (n_ref m)) (var_read_ (n_ref m)) (in_port_ (n_in m)) (out_read_ (n_in m))
             (proc_params m));
        target_names := target_names m;
        new_ref_port_name := ref_port_ (n_ref m);
        new_var_read_name := var_read_ (n_ref m);
        new_in_port_name := in_port_ (n_in m);
        new_out_read_name := out_read_ (n_in m);
        members := members_set m t num_steps d0;
        heap := heap m;
        next_loc := next_loc m |}).
Proof.
  intros Hk Hs Hc.
  unfold probe, connect_var, members_set. rewrite Hk, Hs, Hc. run.
  rewrite !lookup_insert_ne by auto with names.
  rewrite lookup_insert_eq. by run.
Qed.

(** The same for an OutPort. *)
Lemma probe_OutPort_rejected d0 sh :
  kind t = KOutPort → shape t = d0 :: sh → connectable t = false →
  probe t num_steps m =
    (Raise ProbeConnectionFailed,
     {| data := data m;
        proc_params := incr_n_in_ports
          (append_names (ref_port_ (n_ref m)) (var_read_ (n_ref m)) (in_port_ (n_in m)) (out_read_ (n_in m))
             (proc_params m));
        target_names := target_names m;
        new_ref_port_name := ref_port_ (n_ref m);
        new_var_read_name := var_read_ (n_ref m);
        new_in_port_name := in_port_ (n_in m);
        new_out_read_name := out_read_ (n_in m);
        members := members_set m t num_steps d0;
        heap := heap m;
        next_loc := next_loc m |}).
Proof.
  intros Hk Hs Hc.
  unfold probe, connect_from, members_set. rewrite Hk, Hs, Hc. run.
  rewrite !lookup_insert_ne by auto with names.
  rewrite lookup_insert_eq. by run.
Qed.

(** A target that is neither a Var nor an OutPort: the exception comes
    after the attributes were set and the names appended. *)
Lemma probe_unsupported d0 sh :
  kind t ≠ KVar → kind t ≠ KOutPort → shape t = d0 :: sh →
  probe t num_steps m =
    (Raise TypeError,
     {| data := data m;
        proc_params :=
          append_names (ref_port_ (n_ref m)) (var_read_ (n_ref m)) (in_port_ (n_in m)) (out_read_ (n_in m))
            (proc_params m);
        target_names := target_names m;
        new_ref_port_name := ref_port_ (n_ref m);
        new_var_read_name := var_read_ (n_ref m);
        new_in_port_name := in_port_ (n_in m);
        new_out_read_name := out_read_ (n_in m);
        members := members_set m t num_steps d0;
        heap := heap m;
        next_loc := next_loc m |}).
Proof.
  intros Hv Ho Hs. unfold probe, members_set. rewrite Hs.
  destruct (kind t); try done; by run.
Qed.

(** [target.shape[0]] on the empty tuple: the exception comes after the
    RefPort was set and before anything else. *)
Lemma probe_empty_shape :
  shape t = [] →
  probe t num_steps m =
    (Raise IndexError,
     {| data := data m;
        proc_params := proc_params m;
        target_names := target_names m;
        new_ref_port_name := ref_port_ (n_ref m);
        new_var_read_name := var_read_ (n_ref m);
        new_in_port_name := in_port_ (n_in m);
        new_out_read_name := out_read_ (n_in m);
        members := <[ref_port_ (n_ref m) := new_RefPort []]> (members m);
        heap := heap m;
        next_loc := next_loc m |}).
Proof. intros Hs. unfold probe. rewrite Hs. by run. Qed.

End probe_paths.

(** ** The invariants hold in every reachable state *)

Lemma with_heap_same m : with_heap (heap m) (next_loc m) m = m.
Proof. by destruct m. Qed.

Lemma Inv_init : Inv init.
Proof.
  split; [|split; [|split]].
  - split; [simpl; lia|]. split.
    + intros l [x Hx].
      change (heap init) with ({[ 0%nat := ∅ ]} : gmap nat (gmap string pyval)) in Hx.
      apply lookup_singleton_Some in Hx as [<- _]. simpl. lia.
    + exists ∅. split; [done|]. intros o v Hv. by rewrite lookup_empty in Hv.
  - split; [simpl; lia|]. split.
    + intros i nm Hi. change (@nil string !! i = Some nm) in Hi.
      by rewrite lookup_nil in Hi.
    + intros k Hk. simpl in Hk. lia.
  - split; [simpl; lia|]. split.
    + intros i nm Hi. change (@nil string !! i = Some nm) in Hi.
      by rewrite lookup_nil in Hi.
    + intros k Hk. simpl in Hk. lia.
  - intros nm o e Hnm.
    change (target_names init) with (∅ : gmap string (string * string)) in Hnm.
    by rewrite lookup_empty in Hnm.
Qed.

(** Solve [a ≠ b] between generated names, using the bounds in the
    context when both are of the same family. *)
Ltac names_ne :=
  first
    [ by auto with names
    | let H := fresh in
      intros H;
      first [ apply ref_port_inj in H | apply var_read_inj in H
            | apply in_port_inj in H | apply out_read_inj in H ];
      lia ].

(** A family of buffers survives any change that keeps its Vars. *)
Lemma buffers_ok_frame m m' names nm_ cnt :
  buffers_ok m names nm_ cnt →
  (∀ k, (k < cnt)%nat → is_Var (members m !! nm_ k) → is_Var (members m' !! nm_ k)) →
  buffers_ok m' names nm_ cnt.
Proof.
  intros (Hlen & Hnm & Hk) Hmem. repeat split; [done|done|].
  intros k Hlt. apply Hmem; [done|]. by apply Hk.
Qed.

(** The same when a call appended the current name of the family and
    advanced the counter by at most one. *)
Lemma buffers_ok_snoc m m' names nm_ cnt cnt' :
  buffers_ok m names nm_ cnt →
  (cnt ≤ cnt' ≤ S cnt)%nat →
  (∀ k, (k < cnt)%nat → is_Var (members m !! nm_ k) → is_Var (members m' !! nm_ k)) →
  (cnt' = S cnt → is_Var (members m' !! nm_ cnt)) →
  buffers_ok m' (names ++ [nm_ cnt]) nm_ cnt'.
Proof.
  intros (Hlen & Hnm & Hk) Hc Hmem Hnew. split; [|split].
  - rewrite length_app. simpl. lia.
  - intros i nm Hi. apply lookup_app_Some in Hi as [Hi|[Hge Hi]].
    + destruct (Hnm i nm Hi) as (k & -> & ? & ?). exists k. repeat split; [done|lia].
    + apply list_lookup_singleton_Some in Hi as [Hi <-].
      exists cnt. repeat split; lia.
  - intros k Hlt. destruct (decide (k < cnt)%nat) as [Hk'|Hk'].
    + apply Hmem; [done|]. by apply Hk.
    + assert (k = cnt) as -> by lia. apply Hnew. lia.
Qed.

Section probe_keeps_invariants.
Variable m : Monitor.
Variables (t : Target) (num_steps d0 : Z).

Lemma members_set_var_read k :
  (k < n_ref m)%nat →
  members_set m t num_steps d0 !! var_read_ k = members m !! var_read_ k.
Proof. intros Hk. unfold members_set. rewrite !lookup_insert_ne by names_ne. done. Qed.

Lemma members_set_out_read k :
  (k < n_in m)%nat →
  members_set m t num_steps d0 !! out_read_ k = members m !! out_read_ k.
Proof. intros Hk. unfold members_set. rewrite !lookup_insert_ne by names_ne. done. Qed.

Lemma members_set_ref_port k :
  (k < n_ref m)%nat →
  members_set m t num_steps d0 !! ref_port_ k = members m !! ref_port_ k.
Proof. intros Hk. unfold members_set. rewrite !lookup_insert_ne by names_ne. done. Qed.

Lemma members_set_in_port k :
  (k < n_in m)%nat →
  members_set m t num_steps d0 !! in_port_ k = members m !! in_port_ k.
Proof. intros Hk. unfold members_set. rewrite !lookup_insert_ne by names_ne. done. Qed.

Lemma members_set_new_var_read :
  members_set m t num_steps d0 !! var_read_ (n_ref m) = Some (new_Var [d0; num_steps] 0).
Proof.
  unfold members_set. rewrite !lookup_insert_ne by names_ne. by rewrite lookup_insert_eq.
Qed.

Lemma members_set_new_out_read :
  members_set m t num_steps d0 !! out_read_ (n_in m) = Some (new_Var [d0; num_steps] 0).
Proof. unfold members_set. by rewrite lookup_insert_eq. Qed.

Lemma members_set_new_ref_port :
  members_set m t num_steps d0 !! ref_port_ (n_ref m) = Some (new_RefPort (shape t)).
Proof.
  unfold members_set. rewrite !lookup_insert_ne by names_ne. by rewrite lookup_insert_eq.
Qed.

Lemma members_set_new_in_port :
  members_set m t num_steps d0 !! in_port_ (n_in m) = Some (new_InPort (shape t)).
Proof.
  unfold members_set. rewrite !lookup_insert_ne by names_ne. by rewrite lookup_insert_eq.
Qed.

Lemma members_set_other nm :
  nm ≠ ref_port_ (n_ref m) → nm ≠ var_read_ (n_ref m) →
  nm ≠ in_port_ (n_in m) → nm ≠ out_read_ (n_in m) →
  members_set m t num_steps d0 !! nm = members m !! nm.
Proof. intros. unfold members_set. by rewrite !lookup_insert_ne. Qed.

Hypothesis Hheap : heap_ok m.

Lemma heap_set_data outer :
  heap_set m t outer !! data m = Some (<[process_name t := VRef (next_loc m)]> outer).
Proof.
  destruct Hheap as (Hlt & _). unfold heap_set.
  rewrite lookup_insert_ne by lia. by rewrite lookup_insert_eq.
Qed.

Lemma heap_set_fresh outer :
  heap_set m t outer !! next_loc m = Some {[ name t := VInt 0 ]}.
Proof. unfold heap_set. by rewrite lookup_insert_eq. Qed.

Lemma heap_set_old outer l :
  l ≠ data m → (l < next_loc m)%nat → heap_set m t outer !! l = heap m !! l.
Proof. intros Hd Hl. unfold heap_set. rewrite !lookup_insert_ne by lia. done. Qed.

(** The state a successful call leaves, as far as the dictionaries go. *)
Lemma heap_ok_set m' outer :
  heap m !! data m = Some outer →
  data m' = data m → heap m' = heap_set m t outer → next_loc m' = S (next_loc m) →
  heap_ok m' ∧ (∀ o, has_owner m o → has_owner m' o) ∧ has_owner m' (process_name t).
Proof.
  intros Ho Hd Hh Hn. destruct Hheap as (Hlt & Hdom & outer' & Ho' & Hvals).
  assert (outer' = outer) as -> by congruence.
  split; [|split].
  - split; [rewrite Hd, Hn; lia|]. split.
    + intros l. rewrite Hh, Hn. unfold heap_set.
      rewrite !lookup_insert_is_Some. intros [?|[_ [?|[_ [?|[_ Hl]]]]]]; [lia..|].
      apply Hdom in Hl. lia.
    + exists (<[process_name t := VRef (next_loc m)]> outer). rewrite Hd, Hh.
      split; [apply heap_set_data|].
      intros o v. rewrite lookup_insert_Some. intros [[<- <-]|[Hne Hv]].
      * exists (next_loc m). split; [done|]. split; [lia|].
        rewrite heap_set_fresh. eauto.
      * destruct (Hvals o v Hv) as (l & -> & Hl & Hin).
        exists l. split; [done|]. split; [done|].
        rewrite heap_set_old; [done|done|by apply Hdom].
  - intros o (outer1 & l & H1 & H2). assert (outer1 = outer) as -> by congruence.
    unfold has_owner. rewrite Hd, Hh, heap_set_data.
    destruct (decide (o = process_name t)) as [->|Hne].
    + eexists _, _. split; [done|]. by rewrite lookup_insert_eq.
    + eexists _, l. split; [done|]. by rewrite lookup_insert_ne.
  - unfold has_owner. rewrite Hd, Hh, heap_set_data.
    eexists _, _. split; [done|]. by rewrite lookup_insert_eq.
Qed.

End probe_keeps_invariants.

Lemma is_Var_new_Var sh init : is_Var (Some (new_Var sh init)).
Proof. by eexists _, _, _. Qed.


Lemma heap_ok_outer m : heap_ok m → ∃ outer, heap m !! data m = Some outer.
Proof. intros (_ & _ & outer & Ho & _). eauto. Qed.

(** Split a call of [probe] into its six paths and put the state each
    leaves in place of the call. *)
Ltac probe_paths m t n Hh :=
  let outer := fresh "outer" in
  let Hd := fresh "Hd" in
  let Hlt := fresh "Hlt" in
  let d0 := fresh "d0" in
  let sh := fresh "sh" in
  let Hs := fresh "Hs" in
  let Hk := fresh "Hk" in
  let Hk' := fresh "Hk'" in
  let Hc := fresh "Hc" in
  destruct (heap_ok_outer m Hh) as [outer Hd];
  assert (data m < next_loc m)%nat as Hlt by (by destruct Hh);
  destruct (shape t) as [|d0 sh] eqn:Hs;
  [ rewrite (probe_empty_shape m t n Hs)
  | destruct (decide (kind t = KVar)) as [Hk|Hk];
    [ destruct (connectable t) eqn:Hc;
      [ rewrite (probe_Var m t n d0 sh outer Hk Hs Hc Hd Hlt)
      | rewrite (probe_Var_rejected m t n d0 sh Hk Hs Hc) ]
    | destruct (decide (kind t = KOutPort)) as [Hk'|Hk'];
      [ destruct (connectable t) eqn:Hc;
        [ rewrite (probe_OutPort m t n d0 sh outer Hk' Hs Hc Hd Hlt)
        | rewrite (probe_OutPort_rejected m t n d0 sh Hk' Hs Hc) ]
      | rewrite (probe_unsupported m t n d0 sh Hk Hk' Hs) ] ] ].

(** [probe] keeps the invariants whatever its outcome. *)
Lemma Inv_probe m t n : Inv m → Inv (snd (probe t n m)).
Proof.
  intros (Hh & Hv & Ho & Hreg).
  assert (∀ m', data m' = data m → heap m' = heap m → next_loc m' = next_loc m →
            target_names m' = target_names m →
            heap_ok m' ∧ registered_ok m') as Hsame.
  { intros m' E1 E2 E3 E4. split.
    - unfold heap_ok. by rewrite E1, E2, E3.
    - unfold registered_ok, has_owner. by rewrite E1, E2, E4. }
  assert (∀ m' outer key, heap m !! data m = Some outer →
            data m' = data m → heap m' = heap_set m t outer →
            next_loc m' = S (next_loc m) →
            target_names m' = <[key := (process_name t, name t)]> (target_names m) →
            heap_ok m' ∧ registered_ok m') as Hset.
  { intros m' outer key Hd E1 E2 E3 E4.
    destruct (heap_ok_set m t Hh m' outer) as (Hh' & Hown & Hnew); [done..|].
    split; [done|]. intros nm o e. rewrite E4, lookup_insert_Some.
    intros [[_ [= <- <-]]|[_ Hnm]]; [done|]. eapply Hown, Hreg, Hnm. }
  probe_paths m t n Hh.
  - match goal with |- Inv ?x => destruct (Hsame x) as [H1 H2]; [done..|] end.
    split; [exact H1|]. split; [|split; [|exact H2]]; simpl.
    + eapply buffers_ok_frame; [exact Hv|]; simpl.
      intros k Hkk. rewrite lookup_insert_ne by names_ne. tauto.
    + eapply buffers_ok_frame; [exact Ho|]; simpl.
      intros k Hkk. rewrite lookup_insert_ne by names_ne. tauto.
  - match goal with |- Inv ?x => destruct (Hset x outer (var_read_ (n_ref m))) as [H1 H2];
      [done..|] end.
    split; [exact H1|]. split; [|split; [|exact H2]]; simpl.
    + eapply buffers_ok_snoc; [exact Hv|lia|..]; simpl.
      * intros k Hlk. rewrite lookup_insert_ne by names_ne.
        rewrite members_set_var_read by done. tauto.
      * intros _. rewrite lookup_insert_ne by names_ne. rewrite members_set_new_var_read.
        apply is_Var_new_Var.
    + eapply buffers_ok_snoc; [exact Ho|lia|..]; simpl.
      * intros k Hlk. rewrite lookup_insert_ne by names_ne.
        rewrite members_set_out_read by done. tauto.
      * intros; lia.
  - match goal with |- Inv ?x => destruct (Hsame x) as [H1 H2]; [done..|] end.
    split; [exact H1|]. split; [|split; [|exact H2]]; simpl.
    + eapply buffers_ok_snoc; [exact Hv|lia|..]; simpl.
      * intros k Hlk. rewrite members_set_var_read by done. tauto.
      * intros _. rewrite members_set_new_var_read. apply is_Var_new_Var.
    + eapply buffers_ok_snoc; [exact Ho|lia|..]; simpl.
      * intros k Hlk. rewrite members_set_out_read by done. tauto.
      * intros; lia.
  - match goal with |- Inv ?x => destruct (Hset x outer (out_read_ (n_in m))) as [H1 H2];
      [done..|] end.
    split; [exact H1|]. split; [|split; [|exact H2]]; simpl.
    + eapply buffers_ok_snoc; [exact Hv|lia|..]; simpl.
      * intros k Hlk. rewrite lookup_insert_ne by names_ne.
        rewrite members_set_var_read by done. tauto.
      * intros; lia.
    + eapply buffers_ok_snoc; [exact Ho|lia|..]; simpl.
      * intros k Hlk. rewrite lookup_insert_ne by names_ne.
        rewrite members_set_out_read by done. tauto.
      * intros _. rewrite lookup_insert_ne by names_ne. rewrite members_set_new_out_read.
        apply is_Var_new_Var.
  - match goal with |- Inv ?x => destruct (Hsame x) as [H1 H2]; [done..|] end.
    split; [exact H1|]. split; [|split; [|exact H2]]; simpl.
    + eapply buffers_ok_snoc; [exact Hv|lia|..]; simpl.
      * intros k Hlk. rewrite members_set_var_read by done. tauto.
      * intros; lia.
    + eapply buffers_ok_snoc; [exact Ho|lia|..]; simpl.
      * intros k Hlk. rewrite members_set_out_read by done. tauto.
      * intros _. rewrite members_set_new_out_read. apply is_Var_new_Var.
  - match goal with |- Inv ?x => destruct (Hsame x) as [H1 H2]; [done..|] end.
    split; [exact H1|]. split; [|split; [|exact H2]]; simpl.
    + eapply buffers_ok_snoc; [exact Hv|lia|..]; simpl; [|intros; lia].
      intros k Hlk. rewrite members_set_var_read by done. tauto.
    + eapply buffers_ok_snoc; [exact Ho|lia|..]; simpl; [|intros; lia].
      intros k Hlk. rewrite members_set_out_read by done. tauto.
Qed.

Lemma Inv_engine_write m nm a : Inv m → Inv (engine_write nm a m).
Proof.
  intros (Hh & Hv & Ho & Hreg). unfold engine_write.
  destruct (members m !! nm) as [[| |sh init value]|] eqn:Hm; try done.
  assert (∀ k, is_Var (members m !! k) →
               is_Var (<[nm := Var sh init a]> (members m) !! k)) as Hkeep.
  { intros k Hk. destruct (decide (nm = k)) as [->|Hne].
    - rewrite lookup_insert_eq. by eexists _, _, _.
    - by rewrite lookup_insert_ne. }
  split; [exact Hh|]. split; [|split; [|exact Hreg]].
  - eapply buffers_ok_frame; [exact Hv|]; simpl. intros k _. apply Hkeep.
  - eapply buffers_ok_frame; [exact Ho|]; simpl. intros k _. apply Hkeep.
Qed.

(** ** The readout in closed form *)

(** [fetch] does what [fetch_outcome] says: it raises with the state
    untouched, or stores the samples in the inner dictionary. *)
Lemma fetch_spec names i m :
  fetch names i m =
    match fetch_outcome names i m with
    | inl e => (Raise e, m)
    | inr x => (Ok tt, with_heap (store (heap m) (upd_of x)) (next_loc m) m)
    end.
Proof.
  unfold fetch, fetch_outcome, store, upd_of. run.
  destruct (names (proc_params m) !! i) as [nm|]; [|done]. run.
  destruct (members m !! nm) as [obj|]; [|done]. run.
  destruct (target_names m !! nm) as [tn|]; [|done]. run.
  destruct obj as [| |sh init value]; [done|done|]. run.
  destruct (heap m !! data m) as [outer|]; [|done]. run.
  destruct (outer !! tn.1) as [[| |l]|]; [done|done| |done]. run.
  destruct (heap m !! l) as [inner|] eqn:Hl; [|done]. run. by rewrite Hl.
Qed.

Lemma fetch_outcome_with_heap names i m h n :
  h !! data m = heap m !! data m →
  (∀ l, is_Some (h !! l) ↔ is_Some (heap m !! l)) →
  fetch_outcome names i (with_heap h n m) = fetch_outcome names i m.
Proof.
  intros Hd Hdom. unfold fetch_outcome. simpl. rewrite Hd.
  destruct (names (proc_params m) !! i) as [nm|]; [|done].
  destruct (members m !! nm) as [obj|]; [|done].
  destruct (target_names m !! nm) as [tn|]; [|done].
  destruct obj as [| |sh init value]; [done|done|].
  destruct (heap m !! data m) as [outer|]; [|done].
  destruct (outer !! tn.1) as [[| |l]|]; [done|done| |done].
  specialize (Hdom l).
  destruct (h !! l) as [inner'|], (heap m !! l) as [inner|]; try done.
  - destruct Hdom as [Hdom _]. by destruct Hdom.
  - destruct Hdom as [_ Hdom]. by destruct Hdom.
Qed.

(** What a completed round read. *)
Lemma fetch_outcome_inr names i m x :
  fetch_outcome names i m = inr x →
  ∃ nm sh init outer,
    names (proc_params m) !! i = Some nm ∧
    members m !! nm = Some (Var sh init x.2) ∧
    target_names m !! nm = Some (x.1.1.1, x.1.2) ∧
    heap m !! data m = Some outer ∧
    outer !! x.1.1.1 = Some (VRef x.1.1.2) ∧
    is_Some (heap m !! x.1.1.2).
Proof.
  unfold fetch_outcome. intros Hx.
  destruct (names (proc_params m) !! i) as [nm|] eqn:E1; [|done].
  destruct (members m !! nm) as [obj|] eqn:E2; [|done].
  destruct (target_names m !! nm) as [[o e]|] eqn:E3; [|done].
  destruct obj as [| |sh init value]; [done|done|].
  destruct (heap m !! data m) as [outer|] eqn:E4; [|done]. simpl in Hx.
  destruct (outer !! o) as [[| |l]|] eqn:Ho; [done|done| |done].
  destruct (heap m !! l) as [inner|] eqn:Hl; [|done].
  injection Hx as <-. simpl. exists nm, sh, init, outer. rewrite Hl.
  repeat split; eauto.
Qed.

Lemma store_lookup_ne h u l : u.1.1 ≠ l → store h u !! l = h !! l.
Proof. intros Hne. unfold store. by rewrite lookup_insert_ne. Qed.

Lemma store_is_Some h u l : is_Some (h !! l) → is_Some (store h u !! l).
Proof.
  intros Hl. unfold store. destruct (decide (u.1.1 = l)) as [->|Hne].
  - rewrite lookup_insert_eq. eauto.
  - by rewrite lookup_insert_ne.
Qed.

(** *** Stores commute or overwrite: the last write to a slot wins *)

Lemma store_store_same h l e a a' :
  store (store h (l, e, a)) (l, e, a') = store h (l, e, a').
Proof.
  unfold store. simpl. rewrite lookup_insert_eq. simpl.
  by rewrite insert_insert_eq, insert_insert_eq.
Qed.

Lemma store_store_comm h u u' :
  (u.1.1, u.1.2) ≠ (u'.1.1, u'.1.2) →
  store (store h u) u' = store (store h u') u.
Proof.
  destruct u as [[l e] a], u' as [[l' e'] a']. simpl. intros Hne. unfold store. simpl.
  destruct (decide (l = l')) as [<-|Hl].
  - assert (e ≠ e') by congruence.
    rewrite !lookup_insert_eq. simpl. rewrite !insert_insert_eq.
    f_equal. by apply insert_insert_ne.
  - rewrite !lookup_insert_ne by done. by apply insert_insert_ne.
Qed.

Lemma store_absorb us : ∀ h u,
  store (foldl store (store h u) us) u = store (foldl store h us) u.
Proof.
  induction us as [|u' us IH]; intros h u; simpl.
  - destruct u as [[l e] a]. apply store_store_same.
  - destruct (decide ((u.1.1, u.1.2) = (u'.1.1, u'.1.2))) as [Heq|Hne].
    + destruct u as [[l e] a], u' as [[l' e'] a']. simpl in Heq.
      injection Heq as -> ->. by rewrite store_store_same.
    + rewrite (store_store_comm h u u') by done. apply IH.
Qed.

Lemma foldl_store_idemp us : ∀ h,
  foldl store (foldl store h us) us = foldl store h us.
Proof.
  induction us as [|u us IH] using rev_ind; intros h; [done|].
  rewrite !foldl_app. simpl. rewrite store_absorb. by rewrite IH.
Qed.

Lemma foldl_store_lookup_ne us : ∀ h l,
  Forall (λ u, u.1.1 ≠ l) us → foldl store h us !! l = h !! l.
Proof.
  induction us as [|u us IH]; intros h l Hus; [done|].
  apply Forall_cons in Hus as [Hu Hus]. simpl.
  rewrite IH by done. by apply store_lookup_ne.
Qed.

Lemma foldl_store_is_Some us : ∀ h l,
  is_Some (h !! l) → is_Some (foldl store h us !! l).
Proof.
  induction us as [|u us IH]; intros h l Hl; [done|].
  simpl. by apply IH, store_is_Some.
Qed.

Lemma foldl_store_dom us : ∀ h l,
  Forall (λ u, is_Some (h !! u.1.1)) us →
  is_Some (foldl store h us !! l) → is_Some (h !! l).
Proof.
  induction us as [|u us IH]; intros h l Hus Hl; [done|].
  apply Forall_cons in Hus as [Hu Hus]. simpl in Hl.
  apply IH in Hl.
  - unfold store in Hl. apply lookup_insert_is_Some in Hl as [<-|[_ Hl]]; done.
  - eapply Forall_impl; [exact Hus|]. intros u' Hu'. by apply store_is_Some.
Qed.

(** The stores of completed rounds go to inner dictionaries that exist
    and are not [self.data]. *)
Lemma run_loop_good names m idx :
  heap_ok m →
  Forall (λ x, (upd_of x).1.1 ≠ data m ∧ is_Some (heap m !! (upd_of x).1.1))
    (run_loop (λ i, fetch_outcome names i m) idx).2.
Proof.
  intros (_ & _ & outer & Hd & Hvals).
  induction idx as [|i idx IH]; simpl; [constructor|].
  destruct (fetch_outcome names i m) as [e|x] eqn:Hx; simpl; [constructor|].
  constructor; [|done].
  destruct (fetch_outcome_inr names i m x Hx) as (nm & sh & init & outer' & _ & _ & _ & Hd' & Ho & Hin).
  assert (outer' = outer) as -> by congruence.
  destruct (Hvals _ _ Ho) as (l & [= <-] & Hne & _). by split.
Qed.

(** A loop of [get_data]: it stores the samples of its rounds one after
    the other up to the first round that raises. *)
Lemma for_each_run names m n idx : ∀ h,
  heap_ok m →
  h !! data m = heap m !! data m →
  (∀ l, is_Some (h !! l) ↔ is_Some (heap m !! l)) →
  for_each idx (fetch names) (with_heap h n m) =
    (match (run_loop (λ i, fetch_outcome names i m) idx).1 with
     | Some e => Raise e
     | None => Ok tt
     end,
     with_heap (foldl store h (upd_of <$> (run_loop (λ i, fetch_outcome names i m) idx).2))
       n m).
Proof.
  intros h Hh. revert h. induction idx as [|i idx IH]; intros h Hd Hdom; [done|].
  pose proof (run_loop_good names m [i] Hh) as Hgood.
  simpl in *. unfold bind at 1. rewrite fetch_spec.
  rewrite fetch_outcome_with_heap by done.
  destruct (fetch_outcome names i m) as [e|x] eqn:Hx; simpl in *; [done|].
  apply Forall_cons in Hgood as [[Hne Hin] _].
  change (with_heap (store h (upd_of x)) n (with_heap h n m))
    with (with_heap (store h (upd_of x)) n m).
  apply IH.
  - by rewrite store_lookup_ne.
  - intros l. split.
    + unfold store. rewrite lookup_insert_is_Some. intros [<-|[_ Hl]]; [done|by apply Hdom].
    + intros Hl. by apply store_is_Some, Hdom.
Qed.

(** *** [get_data] as a whole *)

Lemma readout_good m :
  heap_ok m →
  Forall (λ x, (upd_of x).1.1 ≠ data m ∧ is_Some (heap m !! (upd_of x).1.1))
    (readout m).2.
Proof.
  intros Hh. unfold readout.
  pose proof (run_loop_good VarsData2 m (seq 0 (n_in m)) Hh) as H2.
  pose proof (run_loop_good VarsData1 m (seq 0 (n_ref m)) Hh) as H1.
  destruct (run_loop _ (seq 0 (n_in m))) as [[e|] us2]; simpl in *; [done|].
  by apply Forall_app.
Qed.

Lemma foldl_store_agree m (xs : list (string * loc * string * ndarray)) h :
  Forall (λ x, (upd_of x).1.1 ≠ data m ∧ is_Some (heap m !! (upd_of x).1.1)) xs →
  h !! data m = heap m !! data m →
  (∀ l, is_Some (h !! l) ↔ is_Some (heap m !! l)) →
  foldl store h (upd_of <$> xs) !! data m = heap m !! data m ∧
  (∀ l, is_Some (foldl store h (upd_of <$> xs) !! l) ↔ is_Some (heap m !! l)).
Proof.
  intros Hgood Hd Hdom. split.
  - rewrite foldl_store_lookup_ne; [done|].
    apply Forall_fmap. eapply Forall_impl; [exact Hgood|]. by intros x [? _].
  - intros l. split.
    + intros Hl. apply Hdom. revert Hl. apply foldl_store_dom.
      apply Forall_fmap. eapply Forall_impl; [exact Hgood|].
      intros x [_ ?]. simpl. by apply Hdom.
    + intros Hl. by apply foldl_store_is_Some, Hdom.
Qed.

(** The readout on a Monitor with sound dictionaries, whatever inner
    dictionaries hold: the result and the state it leaves. *)
Lemma get_data_run m h :
  heap_ok m →
  h !! data m = heap m !! data m →
  (∀ l, is_Some (h !! l) ↔ is_Some (heap m !! l)) →
  get_data (with_heap h (next_loc m) m) =
    (match (readout m).1 with
     | Some e => Raise e
     | None => Ok (data m)
     end,
     with_heap (foldl store h (upd_of <$> (readout m).2)) (next_loc m) m).
Proof.
  intros Hh Hd Hdom.
  pose proof (run_loop_good VarsData2 m (seq 0 (n_in m)) Hh) as Hg2.
  unfold get_data, readout. unfold bind at 1. unfold gets at 1.
  unfold bind at 1. simpl.
  rewrite (for_each_run VarsData2 m (next_loc m) _ h) by done.
  destruct (run_loop (λ i, fetch_outcome VarsData2 i m) (seq 0 (n_in m)))
    as [[e|] xs2]; simpl in *; [done|].
  destruct (foldl_store_agree m xs2 h Hg2 Hd Hdom) as [Hd2 Hdom2].
  unfold bind at 1.
  rewrite (for_each_run VarsData1 m (next_loc m) _ _ Hh Hd2 Hdom2).
  rewrite fmap_app, foldl_app.
  by destruct (run_loop (λ i, fetch_outcome VarsData1 i m) (seq 0 (n_ref m))) as [[e|] xs1].
Qed.

Lemma get_data_eq m :
  heap_ok m →
  get_data m =
    (match (readout m).1 with
     | Some e => Raise e
     | None => Ok (data m)
     end,
     with_heap (foldl store (heap m) (upd_of <$> (readout m).2)) (next_loc m) m).
Proof.
  intros Hh. rewrite <- (with_heap_same m) at 1. by apply get_data_run.
Qed.

(** What a readout leaves untouched, whether it returns or raises. *)
Lemma get_data_fields m :
  heap_ok m →
  members (snd (get_data m)) = members m ∧
  proc_params (snd (get_data m)) = proc_params m ∧
  target_names (snd (get_data m)) = target_names m ∧
  data (snd (get_data m)) = data m ∧
  next_loc (snd (get_data m)) = next_loc m ∧
  heap (snd (get_data m)) !! data m = heap m !! data m ∧
  (∀ l, is_Some (heap (snd (get_data m)) !! l) ↔ is_Some (heap m !! l)).
Proof.
  intros Hh. rewrite get_data_eq by done. simpl.
  destruct (foldl_store_agree m (readout m).2 (heap m)) as [? ?];
    [by apply readout_good|done|done|]. done.
Qed.

(** A second readout right after the first has the same outcome and
    leaves the state as the first left it. *)
Lemma get_data_again m :
  heap_ok m →
  get_data (snd (get_data m)) = (fst (get_data m), snd (get_data m)).
Proof.
  intros Hh. rewrite (get_data_eq m Hh). simpl.
  destruct (foldl_store_agree m (readout m).2 (heap m)) as [Hd Hdom];
    [by apply readout_good|done|done|].
  rewrite get_data_run by done. by rewrite foldl_store_idemp.
Qed.

Lemma Inv_with_heap m h :
  Inv m → h !! data m = heap m !! data m →
  (∀ l, is_Some (h !! l) ↔ is_Some (heap m !! l)) →
  Inv (with_heap h (next_loc m) m).
Proof.
  intros ((Hlt & Hfresh & outer & Hd & Hvals) & Hv & Ho & Hreg) Hsame Hdom.
  split; [|split; [|split]].
  - split; [done|]. split; simpl.
    + intros l Hl. by apply Hfresh, Hdom.
    + exists outer. split; [congruence|]. intros o v Hov.
      destruct (Hvals o v Hov) as (l & -> & Hne & Hin).
      exists l. split; [done|]. split; [done|]. by apply Hdom.
  - eapply buffers_ok_frame; [exact Hv|]. intros k _ H. exact H.
  - eapply buffers_ok_frame; [exact Ho|]. intros k _ H. exact H.
  - intros nm o e Hnm. destruct (Hreg nm o e Hnm) as (outer' & l & H1 & H2).
    exists outer', l. simpl. by rewrite Hsame.
Qed.

Lemma Inv_get_data m : Inv m → Inv (snd (get_data m)).
Proof.
  intros HI. pose proof HI as (Hh & _). rewrite get_data_eq by done. simpl.
  destruct (foldl_store_agree m (readout m).2 (heap m)) as [Hd Hdom];
    [by apply readout_good|done|done|].
  by apply Inv_with_heap.
Qed.

Lemma Inv_step m m' : step m m' → Inv m → Inv m'.
Proof.
  intros [m0 t n|m0 nm a|m0] HI;
    [by apply Inv_probe|by apply Inv_engine_write|by apply Inv_get_data].
Qed.

Lemma Inv_rtc m m' : rtc step m m' → Inv m → Inv m'.
Proof. induction 1; eauto using Inv_step. Qed.

Lemma reachable_Inv m : reachable m → Inv m.
Proof. intros Hr. eapply Inv_rtc; [exact Hr|apply Inv_init]. Qed.

Lemma reachable_heap_ok m : reachable m → heap_ok m.
Proof. intros Hr. by destruct (reachable_Inv m Hr). Qed.
(** * Executions at concrete inputs *)

(** C1 -- counter/list alignment.  A single probe of a Var on a new
    Monitor succeeds and appends a name to all four registry lists, but
    advances only the Var counter: ["InPorts"] and ["VarsData2"] have
    length 1 while ["n_in_ports"] is 0, so the lists are no longer as long
    as their counters. *)
Theorem probe_var_misaligns_registry :
  let m := snd (probe var_A_u 5 init) in
  fst (probe var_A_u 5 init) = Ok tt ∧
  aligned init ∧
  InPorts (proc_params m) = ["in_port_0"] ∧
  VarsData2 (proc_params m) = ["out_read_0"] ∧
  n_in m = 0%nat ∧ n_ref m = 1%nat ∧
  ¬ aligned m.
Proof.
  repeat split; try reflexivity.
  intros (_ & _ & H & _). vm_compute in H. discriminate.
Qed.

(** C2 -- rejection of an unsupported target.  Probing an InPort on a new
    Monitor raises the type error and leaves both counters at 0, but by
    then each of the four registry lists has received a name: the
    registry is not as it was before the call. *)
Theorem probe_in_port_changes_registry :
  let m := snd (probe in_B_a 1 init) in
  fst (probe in_B_a 1 init) = Raise TypeError ∧
  n_ref m = n_ref init ∧ n_in m = n_in init ∧
  RefPorts (proc_params init) = [] ∧ RefPorts (proc_params m) = ["ref_port_0"] ∧
  VarsData1 (proc_params init) = [] ∧ VarsData1 (proc_params m) = ["var_read_0"] ∧
  InPorts (proc_params init) = [] ∧ InPorts (proc_params m) = ["in_port_0"] ∧
  VarsData2 (proc_params init) = [] ∧ VarsData2 (proc_params m) = ["out_read_0"] ∧
  ¬ registry_unchanged init m.
Proof.
  repeat split; try reflexivity.
  intros (_ & _ & H & _). vm_compute in H. discriminate.
Qed.

(** C3 -- readout completeness.  After probing an OutPort and then two
    Vars, the engine writes six samples into the buffer of the second Var
    (["var_read_1"], registered for [("C", "v")]).  The readout succeeds
    and drains the other two buffers, but [data["C"]["v"]] still holds the
    placeholder 0: the second loop of [get_data] reads positions 0 and 1
    of ["VarsData1"], which both hold ["var_read_0"]. *)
Theorem get_data_skips_a_buffer :
  let calls := [(out_B_s, 3); (var_A_u, 3); (var_C_v, 3)] in
  let m := engine_write "var_read_1" six_samples (snd (probes calls init)) in
  let m' := snd (get_data m) in
  fst (probes calls init) = Ok tt ∧
  VarsData1 (proc_params m) = ["var_read_0"; "var_read_0"; "var_read_1"] ∧
  n_ref m = 2%nat ∧
  target_names m !! "var_read_1" = Some ("C", "v") ∧
  members m !! "var_read_1" = Some (Var [2; 3] 0 six_samples) ∧
  fst (get_data m) = Ok (data m) ∧
  lookup2 m' (data m) "A" "u" = Some (VArray (full [4; 3] 0)) ∧
  lookup2 m' (data m) "B" "s_out" = Some (VArray (full [2; 3] 0)) ∧
  lookup2 m' (data m) "C" "v" = Some (VInt 0).
Proof. vm_compute. repeat split; reflexivity. Qed.

(** C5 -- placeholder entries.  Two Vars of the same process are probed
    one after the other; both calls succeed, and before any readout the
    result store has the placeholder for the second Var only: the entry
    of the first went with the dictionary that [self.data["A"] = {}]
    replaced. *)
Theorem probe_drops_earlier_placeholder :
  let calls := [(var_A_u, 5); (var_A_v, 5)] in
  let m1 := snd (probe var_A_u 5 init) in
  let m := snd (probes calls init) in
  fst (probes calls init) = Ok tt ∧
  lookup2 m1 (data m1) "A" "u" = Some (VInt 0) ∧
  lookup2 m (data m) "A" "v" = Some (VInt 0) ∧
  lookup2 m (data m) "A" "u" = None.
Proof. vm_compute. repeat split; reflexivity. Qed.

(** C8 -- readout before execution.  Four successful probes and no engine
    write: the readout does not raise, but the mapping it returns has no
    entry at all for the probed Var [("A", "v")] -- its placeholder was
    dropped by the later probe of another entity of process ["A"], and its
    buffer ["var_read_1"] is not among the names the second loop reads. *)
Theorem get_data_misses_probed_entity :
  let calls := [(out_B_s, 3); (var_A_u, 3); (var_A_v, 3); (out_A_s, 3)] in
  let m := snd (probes calls init) in
  let m' := snd (get_data m) in
  fst (probes calls init) = Ok tt ∧
  target_names m !! "var_read_1" = Some ("A", "v") ∧
  fst (get_data m) = Ok (data m) ∧
  lookup2 m' (data m) "B" "s_out" = Some (VArray (full [2; 3] 0)) ∧
  lookup2 m' (data m) "A" "u" = Some (VArray (full [4; 3] 0)) ∧
  lookup2 m' (data m) "A" "s_out" = Some (VArray (full [4; 3] 0)) ∧
  lookup2 m' (data m) "A" "v" = None.
Proof. vm_compute. repeat split; reflexivity. Qed.

(** * Properties of every call *)

(** A call that returns normally had a Var or an OutPort with at least one
    dimension as its target, and the engine accepted the binding. *)
Lemma probe_success m t n :
  heap_ok m → fst (probe t n m) = Ok tt →
  ∃ d0 sh outer,
    shape t = d0 :: sh ∧ connectable t = true ∧ heap m !! data m = Some outer ∧
    (data m < next_loc m)%nat ∧ (kind t = KVar ∨ kind t = KOutPort).
Proof.
  intros Hh Hok. revert Hok.
  probe_paths m t n Hh; simpl; try done; intros _;
    exists d0, sh, outer; repeat split; auto.
Qed.

Lemma full_zero sh : Forall (λ x, x = 0) (arr_data (full sh 0)).
Proof. simpl. apply Forall_forall. by intros x ->%list_elem_of_In%repeat_spec. Qed.

(** C7 -- shape of the sample buffer.  A successful [probe(target,
    num_steps)] with positive [num_steps] leaves, under the buffer name of
    the probe, a Var of shape [(target.shape[0], num_steps)] with initial
    value 0 whose array has that shape and holds only zeros; the buffer is
    the one entered in [target_names] for the target. *)
Theorem probe_buffer_shape m t num_steps :
  reachable m → 0 < num_steps → fst (probe t num_steps m) = Ok tt →
  let m' := snd (probe t num_steps m) in
  ∃ d0 a,
    shape t !! 0%nat = Some d0 ∧
    target_names m' !! probe_buffer m' t = Some (process_name t, name t) ∧
    members m' !! probe_buffer m' t = Some (Var [d0; num_steps] 0 a) ∧
    arr_shape a = [d0; num_steps] ∧
    length (arr_data a) = (Z.to_nat d0 * Z.to_nat num_steps)%nat ∧
    Forall (λ x, x = 0) (arr_data a).
Proof.
  intros Hr Hpos Hok. apply reachable_Inv in Hr as (Hh & _).
  destruct (probe_success m t num_steps Hh Hok) as (d0 & sh & outer & Hs & Hc & Hd & Hlt & [Hk|Hk]).
  - rewrite (probe_Var m t num_steps d0 sh outer) by done. simpl.
    exists d0, (full [d0; num_steps] 0). unfold probe_buffer. rewrite Hk, Hs. simpl.
    rewrite lookup_insert_eq, lookup_insert_ne by names_ne.
    rewrite members_set_new_var_read.
    repeat split; [|apply (full_zero [d0; num_steps])]. rewrite repeat_length. lia.
  - rewrite (probe_OutPort m t num_steps d0 sh outer) by done. simpl.
    exists d0, (full [d0; num_steps] 0). unfold probe_buffer. rewrite Hk, Hs. simpl.
    rewrite lookup_insert_eq, lookup_insert_ne by names_ne.
    rewrite members_set_new_out_read.
    repeat split; [|apply (full_zero [d0; num_steps])]. rewrite repeat_length. lia.
Qed.

(** C7, at the input of the specification: a target of shape [(4,)]
    probed for 10 steps on a new Monitor. *)
Lemma probe_buffer_shape_4_10 :
  reachable init ∧ 0 < 10 ∧ fst (probe var_A_u 10 init) = Ok tt ∧
  let m' := snd (probe var_A_u 10 init) in
  ∃ d0 a,
    shape var_A_u !! 0%nat = Some d0 ∧
    target_names m' !! probe_buffer m' var_A_u = Some (process_name var_A_u, name var_A_u) ∧
    members m' !! probe_buffer m' var_A_u = Some (Var [d0; 10] 0 a) ∧
    arr_shape a = [d0; 10] ∧
    length (arr_data a) = (Z.to_nat d0 * Z.to_nat 10)%nat ∧
    Forall (λ x, x = 0) (arr_data a).
Proof.
  assert (reachable init) as Hr by apply rtc_refl.
  assert (0 < 10) as Hpos by lia.
  assert (fst (probe var_A_u 10 init) = Ok tt) as Hok by (vm_compute; reflexivity).
  split; [exact Hr|]. split; [exact Hpos|]. split; [exact Hok|].
  exact (probe_buffer_shape init var_A_u 10 Hr Hpos Hok).
Defined.

(** C6, as stated, fails: the probe of a Var of shape [(4,)] on a new
    Monitor also sets an InPort of shape [(4,)] under ["in_port_0"], where
    the prototype of shape [(1,)] was. *)
Lemma probe_var_sets_in_port :
  let m' := snd (probe var_A_u 5 init) in
  fst (probe var_A_u 5 init) = Ok tt ∧
  members init !! "in_port_0" = Some (InPort [1] []) ∧
  members m' !! "in_port_0" = Some (InPort [4] []) ∧
  ¬ other_kind_untouched init m' var_A_u.
Proof.
  repeat split; try (vm_compute; reflexivity).
  intros H. unfold other_kind_untouched in H. simpl in H.
  specialize (H "in_port_0" [4] []). vm_compute in H.
  specialize (H eq_refl). discriminate.
Qed.

(** C6, amended -- the ports a call sets.  A successful [probe] sets one
    RefPort and one InPort, both of shape [target.shape], under the names
    built from the two counters.  The one of the target's kind -- the
    RefPort for a Var, the InPort for an OutPort -- is connected to the
    target and to nothing else; the other is connected to nothing.  The
    two remaining attributes the call sets are Vars, and every other
    attribute is left as it was. *)
Theorem probe_sets_both_ports m t num_steps :
  reachable m → fst (probe t num_steps m) = Ok tt →
  let m' := snd (probe t num_steps m) in
  let r := ref_port_ (n_ref m) in
  let i := in_port_ (n_in m) in
  ((kind t = KVar ∧
    members m' !! r = Some (RefPort (shape t) [t]) ∧
    members m' !! i = Some (InPort (shape t) []))
   ∨
   (kind t = KOutPort ∧
    members m' !! i = Some (InPort (shape t) [t]) ∧
    members m' !! r = Some (RefPort (shape t) []))) ∧
  is_Var (members m' !! var_read_ (n_ref m)) ∧
  is_Var (members m' !! out_read_ (n_in m)) ∧
  ∀ nm, nm ∉ [r; var_read_ (n_ref m); i; out_read_ (n_in m)] →
        members m' !! nm = members m !! nm.
Proof.
  intros Hr Hok. apply reachable_Inv in Hr as (Hh & _).
  destruct (probe_success m t num_steps Hh Hok) as (d0 & sh & outer & Hs & Hc & Hd & Hlt & [Hk|Hk]).
  - rewrite (probe_Var m t num_steps d0 sh outer) by done. simpl.
    split; [left|split; [|split]].
    + split; [done|]. rewrite lookup_insert_eq. split; [done|].
      rewrite lookup_insert_ne by names_ne. apply members_set_new_in_port.
    + rewrite lookup_insert_ne by names_ne. rewrite members_set_new_var_read.
      apply is_Var_new_Var.
    + rewrite lookup_insert_ne by names_ne. rewrite members_set_new_out_read.
      apply is_Var_new_Var.
    + intros nm Hnm. rewrite !not_elem_of_cons in Hnm.
      destruct Hnm as (? & ? & ? & ? & _).
      rewrite lookup_insert_ne by done. by apply members_set_other.
  - rewrite (probe_OutPort m t num_steps d0 sh outer) by done. simpl.
    split; [right|split; [|split]].
    + split; [done|]. rewrite lookup_insert_eq. split; [done|].
      rewrite lookup_insert_ne by names_ne. apply members_set_new_ref_port.
    + rewrite lookup_insert_ne by names_ne. rewrite members_set_new_var_read.
      apply is_Var_new_Var.
    + rewrite lookup_insert_ne by names_ne. rewrite members_set_new_out_read.
      apply is_Var_new_Var.
    + intros nm Hnm. rewrite !not_elem_of_cons in Hnm.
      destruct Hnm as (? & ? & ? & ? & _).
      rewrite lookup_insert_ne by done. by apply members_set_other.
Qed.

(** C6, amended, at the probe of an OutPort on a new Monitor. *)
Lemma probe_sets_both_ports_out_B :
  reachable init ∧ fst (probe out_B_s 3 init) = Ok tt ∧
  let m' := snd (probe out_B_s 3 init) in
  let r := ref_port_ (n_ref init) in
  let i := in_port_ (n_in init) in
  ((kind out_B_s = KVar ∧
    members m' !! r = Some (RefPort (shape out_B_s) [out_B_s]) ∧
    members m' !! i = Some (InPort (shape out_B_s) []))
   ∨
   (kind out_B_s = KOutPort ∧
    members m' !! i = Some (InPort (shape out_B_s) [out_B_s]) ∧
    members m' !! r = Some (RefPort (shape out_B_s) []))) ∧
  is_Var (members m' !! var_read_ (n_ref init)) ∧
  is_Var (members m' !! out_read_ (n_in init)) ∧
  ∀ nm, nm ∉ [r; var_read_ (n_ref init); i; out_read_ (n_in init)] →
        members m' !! nm = members init !! nm.
Proof.
  assert (reachable init) as Hr by apply rtc_refl.
  assert (fst (probe out_B_s 3 init) = Ok tt) as Hok by (vm_compute; reflexivity).
  split; [exact Hr|]. split; [exact Hok|].
  exact (probe_sets_both_ports init out_B_s 3 Hr Hok).
Defined.

(** * Properties of series of calls *)

(** C4, as stated, fails: two probes of Vars generate ["in_port_0"] and
    ["out_read_0"] twice, once in each call. *)
Lemma generated_names_repeat :
  let calls := [(var_A_u, 5); (var_A_v, 5)] in
  fst (probes calls init) = Ok tt ∧
  generated_names calls init =
    ["ref_port_0"; "var_read_0"; "in_port_0"; "out_read_0";
     "ref_port_1"; "var_read_1"; "in_port_0"; "out_read_0"] ∧
  ¬ NoDup (generated_names calls init).
Proof.
  assert (generated_names [(var_A_u, 5); (var_A_v, 5)] init =
    ["ref_port_0"; "var_read_0"; "in_port_0"; "out_read_0";
     "ref_port_1"; "var_read_1"; "in_port_0"; "out_read_0"]) as Hg
    by (vm_compute; reflexivity).
  split; [vm_compute; reflexivity|]. split; [exact Hg|].
  simpl. rewrite Hg. intros H.
  apply NoDup_cons in H as [_ H]. apply NoDup_cons in H as [_ H].
  apply NoDup_cons in H as [Hin _]. apply Hin. set_solver.
Qed.

Lemma numbered_elem calls : ∀ a b x,
  x ∈ numbered calls a b →
  (∃ k, (a ≤ k)%nat ∧ (x = ref_port_ k ∨ x = var_read_ k)) ∨
  (∃ k, (b ≤ k)%nat ∧ (x = in_port_ k ∨ x = out_read_ k)).
Proof.
  induction calls as [|[t n] calls IH]; intros a b x Hx; simpl in Hx.
  - by apply not_elem_of_nil in Hx.
  - destruct (kind t).
    + rewrite !elem_of_cons in Hx. destruct Hx as [->|[->|Hx]].
      * left. exists a. split; [lia|by left].
      * left. exists a. split; [lia|by right].
      * destruct (IH _ _ _ Hx) as [(k & ? & ?)|(k & ? & ?)]; [left|right]; exists k;
          (split; [lia|done]).
    + rewrite !elem_of_cons in Hx. destruct Hx as [->|[->|Hx]].
      * right. exists b. split; [lia|by left].
      * right. exists b. split; [lia|by right].
      * destruct (IH _ _ _ Hx) as [(k & ? & ?)|(k & ? & ?)]; [left|right]; exists k;
          (split; [lia|done]).
    + by apply IH.
    + by apply IH.
Qed.

Lemma NoDup_numbered calls : ∀ a b, NoDup (numbered calls a b).
Proof.
  induction calls as [|[t n] calls IH]; intros a b; simpl; [constructor|].
  destruct (kind t); [| |apply IH..].
  - apply NoDup_cons. split.
    + rewrite not_elem_of_cons. split; [names_ne|].
      intros [(k & ? & [H|H])|(k & ? & [H|H])]%numbered_elem; revert H; names_ne.
    + apply NoDup_cons. split; [|apply IH].
      intros [(k & ? & [H|H])|(k & ? & [H|H])]%numbered_elem; revert H; names_ne.
  - apply NoDup_cons. split.
    + rewrite not_elem_of_cons. split; [names_ne|].
      intros [(k & ? & [H|H])|(k & ? & [H|H])]%numbered_elem; revert H; names_ne.
    + apply NoDup_cons. split; [|apply IH].
      intros [(k & ? & [H|H])|(k & ? & [H|H])]%numbered_elem; revert H; names_ne.
Qed.

Lemma probes_cons t n calls m m1 :
  probe t n m = (Ok tt, m1) →
  probes ((t, n) :: calls) m = probes calls m1 ∧
  attached_names ((t, n) :: calls) m = probe_names m1 t ++ attached_names calls m1.
Proof.
  intros Hp. split.
  - simpl. unfold bind. by rewrite Hp.
  - unfold attached_names. simpl. by rewrite Hp.
Qed.

(** A series that ran to its end had each call return normally. *)
Lemma probes_head_ok t n calls m :
  fst (probes ((t, n) :: calls) m) = Ok tt → fst (probe t n m) = Ok tt.
Proof.
  simpl. unfold bind. by destruct (probe t n m) as [[[]|e] m1].
Qed.

(** From any state with sound dictionaries, a series of calls that all
    return normally binds the names the numbering promises, leaves the
    [k]-th target of each kind registered under index [k] counted from
    the counter at the start, and does not touch smaller indices. *)
Lemma probes_numbered calls : ∀ m,
  heap_ok m → fst (probes calls m) = Ok tt →
  let m' := snd (probes calls m) in
  attached_names calls m = numbered calls (n_ref m) (n_in m) ∧
  (∀ k t, targets_of KVar calls !! k = Some t →
     members m' !! ref_port_ (n_ref m + k) = Some (RefPort (shape t) [t]) ∧
     target_names m' !! var_read_ (n_ref m + k) = Some (process_name t, name t)) ∧
  (∀ k t, targets_of KOutPort calls !! k = Some t →
     members m' !! in_port_ (n_in m + k) = Some (InPort (shape t) [t]) ∧
     target_names m' !! out_read_ (n_in m + k) = Some (process_name t, name t)) ∧
  (∀ k, (k < n_ref m)%nat →
     members m' !! ref_port_ k = members m !! ref_port_ k ∧
     target_names m' !! var_read_ k = target_names m !! var_read_ k) ∧
  (∀ k, (k < n_in m)%nat →
     members m' !! in_port_ k = members m !! in_port_ k ∧
     target_names m' !! out_read_ k = target_names m !! out_read_ k).
Proof.
  induction calls as [|[t n] calls IH]; intros m Hh Hall.
  { simpl. repeat split; try done; intros k t H; by rewrite lookup_nil in H. }
  pose proof (probes_head_ok t n calls m Hall) as Hok1.
  destruct (probe_success m t n Hh Hok1)
    as (d0 & sh & outer & Hs & Hc & Hd & Hlt & [Hk|Hk]).
  - pose proof (probe_Var m t n d0 sh outer Hk Hs Hc Hd Hlt) as Hp.
    match type of Hp with _ = (_, ?x) => set (m1 := x) in * end.
    destruct (probes_cons t n calls m m1 Hp) as [E1 E2]. rewrite E1 in Hall.
    cbv zeta. rewrite E1, E2. clear E1 E2.
    destruct (heap_ok_set m t Hh m1 outer) as (Hh1 & _); [done..|].
    destruct (IH m1 Hh1 Hall) as (Hnames & Hvar & Hout & Hfv & Hfo).
    change (n_ref m1) with (S (n_ref m)) in *. change (n_in m1) with (n_in m) in *.
    assert (targets_of KVar ((t, n) :: calls) = t :: targets_of KVar calls) as ->.
    { unfold targets_of. simpl. by rewrite filter_cons_True. }
    assert (targets_of KOutPort ((t, n) :: calls) = targets_of KOutPort calls) as ->.
    { unfold targets_of. simpl. rewrite filter_cons_False; [done|]. by rewrite Hk. }
    split; [|split; [|split; [|split]]].
    + rewrite Hnames. unfold probe_names. simpl. by rewrite Hk.
    + intros [|k] t' Ht'.
      * injection Ht' as <-. rewrite Nat.add_0_r.
        destruct (Hfv (n_ref m)) as [-> ->]; [lia|]. simpl.
        by rewrite !lookup_insert_eq.
      * rewrite Nat.add_succ_r. by apply Hvar.
    + exact Hout.
    + intros k Hk'. destruct (Hfv k) as [-> ->]; [lia|]. simpl.
      rewrite !lookup_insert_ne by names_ne. by rewrite members_set_ref_port.
    + intros k Hk'. destruct (Hfo k) as [-> ->]; [lia|]. simpl.
      rewrite !lookup_insert_ne by names_ne. by rewrite members_set_in_port.
  - pose proof (probe_OutPort m t n d0 sh outer Hk Hs Hc Hd Hlt) as Hp.
    match type of Hp with _ = (_, ?x) => set (m1 := x) in * end.
    destruct (probes_cons t n calls m m1 Hp) as [E1 E2]. rewrite E1 in Hall.
    cbv zeta. rewrite E1, E2. clear E1 E2.
    destruct (heap_ok_set m t Hh m1 outer) as (Hh1 & _); [done..|].
    destruct (IH m1 Hh1 Hall) as (Hnames & Hvar & Hout & Hfv & Hfo).
    change (n_ref m1) with (n_ref m) in *. change (n_in m1) with (S (n_in m)) in *.
    assert (targets_of KOutPort ((t, n) :: calls) = t :: targets_of KOutPort calls) as ->.
    { unfold targets_of. simpl. by rewrite filter_cons_True. }
    assert (targets_of KVar ((t, n) :: calls) = targets_of KVar calls) as ->.
    { unfold targets_of. simpl. rewrite filter_cons_False; [done|]. by rewrite Hk. }
    split; [|split; [|split; [|split]]].
    + rewrite Hnames. unfold probe_names. simpl. by rewrite Hk.
    + exact Hvar.
    + intros [|k] t' Ht'.
      * injection Ht' as <-. rewrite Nat.add_0_r.
        destruct (Hfo (n_in m)) as [-> ->]; [lia|]. simpl.
        by rewrite !lookup_insert_eq.
      * rewrite Nat.add_succ_r. by apply Hout.
    + intros k Hk'. destruct (Hfv k) as [-> ->]; [lia|]. simpl.
      rewrite !lookup_insert_ne by names_ne. by rewrite members_set_ref_port.
    + intros k Hk'. destruct (Hfo k) as [-> ->]; [lia|]. simpl.
      rewrite !lookup_insert_ne by names_ne. by rewrite members_set_in_port.
Qed.

(** C4, amended -- naming of the probes.  For every series of calls on a
    new Monitor that all return normally, the tap and buffer names bound
    to the targets (the port that is connected and the buffer that is
    entered in [target_names]) are pairwise distinct; they are the names
    numbered per kind in the order of attachment, whatever the
    interleaving; and at the end the [k]-th Var probed is connected to
    ["ref_port_k"] and registered under ["var_read_k"], the [k]-th
    OutPort to ["in_port_k"] and under ["out_read_k"]. *)
Theorem attached_names_distinct_numbered calls :
  fst (probes calls init) = Ok tt →
  let m := snd (probes calls init) in
  attached_names calls init = numbered calls 0 0 ∧
  NoDup (attached_names calls init) ∧
  (∀ k t, targets_of KVar calls !! k = Some t →
     members m !! ref_port_ k = Some (RefPort (shape t) [t]) ∧
     target_names m !! var_read_ k = Some (process_name t, name t)) ∧
  (∀ k t, targets_of KOutPort calls !! k = Some t →
     members m !! in_port_ k = Some (InPort (shape t) [t]) ∧
     target_names m !! out_read_ k = Some (process_name t, name t)).
Proof.
  intros Hok.
  destruct (probes_numbered calls init) as (Hnames & Hvar & Hout & _);
    [apply Inv_init|done|].
  change (n_ref init) with 0%nat in *. change (n_in init) with 0%nat in *.
  split; [done|]. split; [|split].
  - rewrite Hnames. apply NoDup_numbered.
  - intros k t Ht. by apply (Hvar k t).
  - intros k t Ht. by apply (Hout k t).
Qed.

(** C4, amended, at an OutPort followed by two Vars. *)
Lemma attached_names_out_var_var :
  let calls := [(out_B_s, 3); (var_A_u, 3); (var_C_v, 3)] in
  fst (probes calls init) = Ok tt ∧
  let m := snd (probes calls init) in
  attached_names calls init = numbered calls 0 0 ∧
  NoDup (attached_names calls init) ∧
  (∀ k t, targets_of KVar calls !! k = Some t →
     members m !! ref_port_ k = Some (RefPort (shape t) [t]) ∧
     target_names m !! var_read_ k = Some (process_name t, name t)) ∧
  (∀ k t, targets_of KOutPort calls !! k = Some t →
     members m !! in_port_ k = Some (InPort (shape t) [t]) ∧
     target_names m !! out_read_ k = Some (process_name t, name t)).
Proof.
  assert (fst (probes [(out_B_s, 3); (var_A_u, 3); (var_C_v, 3)] init) = Ok tt) as Hok
    by (vm_compute; reflexivity).
  split; [exact Hok|].
  exact (attached_names_distinct_numbered _ Hok).
Defined.

(** * The readout *)

(** On a Monitor with no probe the readout returns the empty dictionary
    the Monitor was built with. *)
Lemma get_data_no_probes :
  get_data init = (Ok (data init), init) ∧ heap init !! data init = Some ∅.
Proof. split; vm_compute; reflexivity. Qed.

(** Induction over the reachable states, with the invariants at hand. *)
Lemma reachable_ind (P : Monitor → Prop) :
  P init →
  (∀ m t n, Inv m → P m → P (snd (probe t n m))) →
  (∀ m nm a, Inv m → P m → P (engine_write nm a m)) →
  (∀ m, Inv m → P m → P (snd (get_data m))) →
  ∀ m, reachable m → P m.
Proof.
  intros H0 Hp Hw Hg. unfold reachable. apply rtc_ind_r; [done|].
  intros m1 m2 Hr Hs IH. apply reachable_Inv in Hr.
  destruct Hs; [by apply Hp|by apply Hw|by apply Hg].
Qed.

(** The same with the predecessor known to be reachable. *)
Lemma reachable_ind_r (P : Monitor → Prop) :
  P init →
  (∀ m t n, reachable m → P m → P (snd (probe t n m))) →
  (∀ m nm a, reachable m → P m → P (engine_write nm a m)) →
  (∀ m, reachable m → P m → P (snd (get_data m))) →
  ∀ m, reachable m → P m.
Proof.
  intros H0 Hp Hw Hg. unfold reachable. apply rtc_ind_r; [done|].
  intros m1 m2 Hr Hs IH.
  destruct Hs; [by apply Hp|by apply Hw|by apply Hg].
Qed.

Lemma reachable_probe m t n : reachable m → reachable (snd (probe t n m)).
Proof. intros Hr. eapply rtc_r; [exact Hr|apply step_probe]. Qed.

Lemma reachable_probes calls : ∀ m, reachable m → reachable (snd (probes calls m)).
Proof.
  induction calls as [|[t n] calls IH]; intros m Hr; [done|].
  simpl. unfold bind. pose proof (reachable_probe m t n Hr) as Hr1.
  destruct (probe t n m) as [[[]|e] m1]; simpl in *; [by apply IH|done].
Qed.

Lemma engine_write_fields m nm a :
  proc_params (engine_write nm a m) = proc_params m ∧
  target_names (engine_write nm a m) = target_names m ∧
  data (engine_write nm a m) = data m ∧
  heap (engine_write nm a m) = heap m ∧
  next_loc (engine_write nm a m) = next_loc m.
Proof. unfold engine_write. by destruct (members m !! nm) as [[]|]. Qed.

(** *** [self.data] is one object for the life of the Monitor *)

Lemma probe_data m t n : heap_ok m → data (snd (probe t n m)) = data m.
Proof. intros Hh. probe_paths m t n Hh; done. Qed.

Lemma step_data m m' : step m m' → Inv m → data m' = data m.
Proof.
  intros [m0 t n|m0 nm a|m0] HI.
  - apply probe_data, HI.
  - by destruct (engine_write_fields m0 nm a) as (_ & _ & ? & _).
  - by destruct (get_data_fields m0 (proj1 HI)) as (_ & _ & _ & ? & _).
Qed.

Lemma rtc_step_data m m' : rtc step m m' → Inv m → data m' = data m ∧ Inv m'.
Proof.
  induction 1 as [|m1 m2 m3 Hs _ IH]; intros HI; [done|].
  destruct IH as [-> HI3]; [by eapply Inv_step|].
  split; [by apply step_data|done].
Qed.

(** What a successful probe leaves in the result store. *)
Lemma probe_placeholder m t n :
  heap_ok m → fst (probe t n m) = Ok tt →
  lookup2 (snd (probe t n m)) (data m) (process_name t) (name t) = Some (VInt 0).
Proof.
  intros Hh Hok.
  destruct (probe_success m t n Hh Hok)
    as (d0 & sh & outer & Hs & Hc & Hd & Hlt & [Hk|Hk]).
  - rewrite (probe_Var m t n d0 sh outer) by done. unfold lookup2. simpl.
    rewrite heap_set_data by done. rewrite lookup_insert_eq.
    rewrite heap_set_fresh. by rewrite lookup_singleton_eq.
  - rewrite (probe_OutPort m t n d0 sh outer) by done. unfold lookup2. simpl.
    rewrite heap_set_data by done. rewrite lookup_insert_eq.
    rewrite heap_set_fresh. by rewrite lookup_singleton_eq.
Qed.

(** *** Processes and their dictionaries *)

Lemma owners_apart_reachable m : reachable m → owners_apart m.
Proof.
  revert m. apply reachable_ind.
  - intros outer o o' l Hd Ho. change (heap init !! data init) with
      (({[ 0%nat := ∅ ]} : gmap nat (gmap string pyval)) !! 0%nat) in Hd.
    rewrite lookup_singleton_eq in Hd. injection Hd as <-. by rewrite lookup_empty in Ho.
  - intros m0 t n (Hh & _) HP.
    assert (∀ m' outer, heap m0 !! data m0 = Some outer →
              data m' = data m0 → heap m' = heap_set m0 t outer → owners_apart m') as Hset.
    { intros m' outer Hd Hd' Hh' outer' o o' l Hd'' Ho Ho'.
      rewrite Hd', Hh', heap_set_data in Hd'' by done. injection Hd'' as <-.
      destruct Hh as (_ & Hfresh & outer1 & Hd1 & Hvals).
      assert (outer1 = outer) as -> by congruence.
      assert (∀ x, outer !! x = Some (VRef (next_loc m0)) → False) as Hnot.
      { intros x Hx. destruct (Hvals x _ Hx) as (l' & [= <-] & _ & Hin).
        apply Hfresh in Hin. lia. }
      rewrite lookup_insert_Some in Ho. rewrite lookup_insert_Some in Ho'.
      destruct Ho as [[Eo El]|[Hne Ho]], Ho' as [[Eo' El']|[Hne' Ho']].
      + congruence.
      + injection El as <-. by destruct (Hnot o').
      + injection El' as <-. by destruct (Hnot o).
      + by apply (HP outer o o' l). }
    probe_paths m0 t n Hh;
      [exact HP|by eapply Hset|exact HP|by eapply Hset|exact HP|exact HP].
  - intros m0 nm a _ HP. destruct (engine_write_fields m0 nm a) as (_ & _ & Hd & Hh & _).
    unfold owners_apart. by rewrite Hd, Hh.
  - intros m0 (Hh & _) HP.
    destruct (get_data_fields m0 Hh) as (_ & _ & _ & Hd & _ & Hh' & _).
    unfold owners_apart. by rewrite Hd, Hh'.
Qed.

(** *** The entries after a readout *)

Lemma run_loop_Forall {A B E} (f : A → E + B) (P : B → Prop) l :
  (∀ i y, f i = inr y → P y) → Forall P (run_loop f l).2.
Proof.
  intros H. induction l as [|i l IH]; simpl; [constructor|].
  destruct (f i) as [e|y] eqn:Hy; simpl; [constructor|].
  constructor; [by eapply H|done].
Qed.

(** What holds of every completed round of either loop holds of the
    rounds of the readout. *)
Lemma readout_Forall m (P : string * loc * string * ndarray → Prop) :
  (∀ names i x, fetch_outcome names i m = inr x → P x) → Forall P (readout m).2.
Proof.
  intros H. unfold readout.
  pose proof (run_loop_Forall (λ i, fetch_outcome VarsData2 i m) P
                (seq 0 (n_in m)) (H VarsData2)) as H2.
  pose proof (run_loop_Forall (λ i, fetch_outcome VarsData1 i m) P
                (seq 0 (n_ref m)) (H VarsData1)) as H1.
  destruct (run_loop _ (seq 0 (n_in m))) as [[e|] xs2]; simpl in *; [done|].
  by apply Forall_app.
Qed.

(** What a slot of an inner dictionary holds after a series of stores. *)
Lemma foldl_store_slot us : ∀ h l e,
  foldl store h us !! l ≫= (λ inner, inner !! e) =
    match last_at l e us with
    | Some a => Some (VArray a)
    | None => h !! l ≫= (λ inner, inner !! e)
    end.
Proof.
  induction us as [|u us IH] using rev_ind; intros h l e; [done|].
  unfold last_at. rewrite !foldl_app. simpl. fold (last_at l e us).
  unfold store at 1. case_decide as Hu.
  - destruct Hu as [<- <-]. rewrite lookup_insert_eq. simpl.
    by rewrite lookup_insert_eq.
  - destruct (decide (u.1.1 = l)) as [<-|Hl].
    + rewrite lookup_insert_eq. simpl.
      rewrite lookup_insert_ne by (intros ?; apply Hu; by split).
      rewrite <- IH. by destruct (foldl store h us !! u.1.1).
    + rewrite lookup_insert_ne by done. apply IH.
Qed.

(** The rounds named by owner are the stores named by inner dictionary. *)
Lemma last_for_last_at (outer : gmap string pyval) o l e
    (xs : list (string * loc * string * ndarray)) :
  (∀ o', outer !! o' = Some (VRef l) → o' = o) →
  outer !! o = Some (VRef l) →
  Forall (λ x, outer !! x.1.1.1 = Some (VRef x.1.1.2)) xs →
  last_for o e ((λ x, (x.1.1.1, x.1.2, x.2)) <$> xs) = last_at l e (upd_of <$> xs).
Proof.
  intros Hinj Ho Hrel. unfold last_for, last_at. generalize (@None ndarray).
  induction Hrel as [|x xs Hx Hrel IH]; intros acc; [done|].
  csimpl.
  destruct (decide (x.1.1.1 = o ∧ x.1.2 = e)) as [[Heq He']|Hn];
    destruct (decide (x.1.1.2 = l ∧ x.1.2 = e)) as [[Heq' He'']|Hn']; try apply IH.
  - destruct Hn'. split; [|done]. rewrite Heq, Ho in Hx. by injection Hx.
  - destruct Hn. split; [|done]. apply Hinj. by rewrite <- Heq'.
Qed.

Lemma last_for_no_owner (outer : gmap string pyval) o e
    (xs : list (string * loc * string * ndarray)) :
  outer !! o = None →
  Forall (λ x, outer !! x.1.1.1 = Some (VRef x.1.1.2)) xs →
  last_for o e ((λ x, (x.1.1.1, x.1.2, x.2)) <$> xs) = None.
Proof.
  intros Ho Hrel. unfold last_for.
  assert (∀ acc, foldl (λ acc r, if decide (r.1.1 = o ∧ r.1.2 = e) then Some r.2 else acc)
            acc ((λ x : string * loc * string * ndarray, (x.1.1.1, x.1.2, x.2)) <$> xs) = acc)
    as H; [|apply H].
  induction Hrel as [|x xs Hx Hrel IH]; intros acc; [done|].
  csimpl. rewrite decide_False; [apply IH|]. intros [<- _]. congruence.
Qed.

(** The readout, entry by entry, whether it returns or raises: the entry
    holds the samples of the last completed round for it, or is as it
    was. *)
Lemma get_data_lookup m o e :
  heap_ok m → owners_apart m →
  lookup2 (snd (get_data m)) (data m) o e =
    match last_for o e (rounds m) with
    | Some a => Some (VArray a)
    | None => lookup2 m (data m) o e
    end.
Proof.
  intros Hh Hinj. rewrite get_data_eq by done.
  pose proof (readout_good m Hh) as Hgood.
  destruct Hh as (_ & _ & outer & Hd & Hvals).
  assert (Forall (λ x, outer !! x.1.1.1 = Some (VRef x.1.1.2)) (readout m).2) as Hrel.
  { apply readout_Forall. intros names i x Hx.
    destruct (fetch_outcome_inr names i m x Hx)
      as (nm & sh & init & outer' & _ & _ & _ & Hd' & Ho & _).
    congruence. }
  unfold lookup2, rounds. simpl.
  rewrite foldl_store_lookup_ne, Hd.
  2:{ apply Forall_fmap. eapply Forall_impl; [exact Hgood|]. by intros x [? _]. }
  destruct (outer !! o) as [v|] eqn:Hov.
  - destruct (Hvals o v Hov) as (l & -> & Hne & Hin).
    rewrite (last_for_last_at outer o l e (readout m).2); [|..|done|done].
    2:{ intros o' Ho'. by apply (Hinj outer o' o l). }
    pose proof (foldl_store_slot (upd_of <$> (readout m).2) (heap m) l e) as Hslot.
    destruct (foldl store (heap m) (upd_of <$> (readout m).2) !! l) as [inner'|];
      destruct (heap m !! l) as [inner|]; simpl in Hslot; try done;
      by destruct Hin.
  - by rewrite (last_for_no_owner outer o e (readout m).2).
Qed.

(** The reference a readout returns, when it returns. *)
Lemma get_data_returns m d m1 :
  heap_ok m → get_data m = (Ok d, m1) → d = data m ∧ m1 = snd (get_data m).
Proof.
  intros Hh H1. split; [|by rewrite H1].
  rewrite get_data_eq in H1 by done.
  destruct ((readout m).1); simpl in H1; congruence.
Qed.

(** C9 -- idempotent readout.  In every reachable state, whatever the
    first call of [get_data] gives -- the dictionary or an exception --
    a second call right after it gives the same and leaves the state
    exactly as the first call left it, so the dictionary holds the same
    both times; the attributes, among them the sample buffers, are as
    before the first call; and a call that returns returns [self.data]. *)
Theorem get_data_idempotent m :
  reachable m →
  ∀ r m1, get_data m = (r, m1) →
    get_data m1 = (r, m1) ∧
    members m1 = members m ∧
    (∀ d, r = Ok d → d = data m).
Proof.
  intros Hr r m1 H1. pose proof (reachable_heap_ok m Hr) as Hh.
  pose proof (get_data_again m Hh) as H2. rewrite H1 in H2. simpl in H2.
  destruct (get_data_fields m Hh) as (Hm & _). rewrite H1 in Hm. simpl in Hm.
  split; [done|]. split; [done|]. intros d ->.
  by destruct (get_data_returns m d m1 Hh H1).
Qed.

(** C9, after one probe of a Var. *)
Lemma get_data_idempotent_after_probe :
  let m := snd (probe var_A_u 5 init) in
  let m1 := snd (get_data m) in
  reachable m ∧ get_data m = (Ok (data m), m1) ∧
  get_data m1 = (Ok (data m), m1) ∧
  members m1 = members m ∧
  (∀ d, Ok (data m) = Ok d → d = data m).
Proof.
  assert (reachable (snd (probe var_A_u 5 init))) as Hr
    by apply rtc_once, step_probe.
  assert (get_data (snd (probe var_A_u 5 init)) =
            (Ok (data (snd (probe var_A_u 5 init))),
             snd (get_data (snd (probe var_A_u 5 init))))) as H1
    by (vm_compute; reflexivity).
  split; [exact Hr|]. split; [exact H1|].
  exact (get_data_idempotent _ Hr _ _ H1).
Defined.

(** C10 -- the returned dictionary is [self.data] itself.  In every
    reachable state a call of [get_data] that returns gives the reference
    held in [self.data] and keeps it there; it creates no dictionary
    object (the identities in use and the next free one are as before)
    and fills the existing ones in place: every entry holds the samples
    of the last round of the two loops that is registered for it, and is
    untouched if there is none.  Whatever happens afterwards,
    [self.data] is still that object: through the reference obtained from
    the first call one sees the placeholder a later successful probe
    enters, and a later readout that returns gives the same reference
    again and what it stores, entry by entry, shows through the first. *)
Theorem get_data_returns_self_data m :
  reachable m →
  ∀ d m1, get_data m = (Ok d, m1) →
    d = data m ∧ data m1 = d ∧
    next_loc m1 = next_loc m ∧
    (∀ l, is_Some (heap m1 !! l) ↔ is_Some (heap m !! l)) ∧
    (∀ o e, lookup2 m1 d o e =
       match last_for o e (rounds m) with
       | Some a => Some (VArray a)
       | None => lookup2 m d o e
       end) ∧
    ∀ m2, rtc step m1 m2 →
      data m2 = d ∧
      (∀ t n, fst (probe t n m2) = Ok tt →
         lookup2 (snd (probe t n m2)) d (process_name t) (name t) = Some (VInt 0)) ∧
      (∀ d2 m3, get_data m2 = (Ok d2, m3) →
         d2 = d ∧
         ∀ o e, lookup2 m3 d o e =
           match last_for o e (rounds m2) with
           | Some a => Some (VArray a)
           | None => lookup2 m2 d o e
           end).
Proof.
  intros Hr d m1 H1. pose proof (reachable_Inv m Hr) as HI. pose proof HI as (Hh & _).
  destruct (get_data_returns m d m1 Hh H1) as [-> ->].
  destruct (get_data_fields m Hh) as (_ & _ & _ & Hd & Hn & _ & Hdom).
  split; [done|]. split; [done|]. split; [done|]. split; [done|].
  split; [intros o e; apply get_data_lookup; [done|by apply owners_apart_reachable]|].
  intros m2 Hsteps.
  assert (reachable m2) as Hr2.
  { unfold reachable. etrans; [exact Hr|]. eapply rtc_l; [apply step_get_data|exact Hsteps]. }
  pose proof (reachable_Inv m2 Hr2) as HI2. pose proof HI2 as (Hh2 & _).
  destruct (rtc_step_data _ m2 Hsteps (Inv_get_data m HI)) as [Hd2 _].
  assert (data m2 = data m) as Hdm by congruence.
  split; [done|]. split.
  - intros t n Hok. rewrite <- Hdm. by apply probe_placeholder.
  - intros d2 m3 H3. destruct (get_data_returns m2 d2 m3 Hh2 H3) as [-> ->].
    split; [done|]. intros o e. rewrite <- Hdm.
    apply get_data_lookup; [done|by apply owners_apart_reachable].
Qed.

(** C10, on a Monitor with one Var probed. *)
Lemma get_data_returns_self_data_after_probe :
  let m := snd (probe var_A_u 5 init) in
  let d := data m in
  let m1 := snd (get_data m) in
  reachable m ∧ get_data m = (Ok d, m1) ∧
  d = data m ∧ data m1 = d ∧
  next_loc m1 = next_loc m ∧
  (∀ l, is_Some (heap m1 !! l) ↔ is_Some (heap m !! l)) ∧
  (∀ o e, lookup2 m1 d o e =
     match last_for o e (rounds m) with
     | Some a => Some (VArray a)
     | None => lookup2 m d o e
     end) ∧
  ∀ m2, rtc step m1 m2 →
    data m2 = d ∧
    (∀ t n, fst (probe t n m2) = Ok tt →
       lookup2 (snd (probe t n m2)) d (process_name t) (name t) = Some (VInt 0)) ∧
    (∀ d2 m3, get_data m2 = (Ok d2, m3) →
       d2 = d ∧
       ∀ o e, lookup2 m3 d o e =
         match last_for o e (rounds m2) with
         | Some a => Some (VArray a)
         | None => lookup2 m2 d o e
         end).
Proof.
  assert (reachable (snd (probe var_A_u 5 init))) as Hr
    by apply rtc_once, step_probe.
  assert (get_data (snd (probe var_A_u 5 init)) =
            (Ok (data (snd (probe var_A_u 5 init))),
             snd (get_data (snd (probe var_A_u 5 init))))) as H1
    by (vm_compute; reflexivity).
  split; [exact Hr|]. split; [exact H1|].
  exact (get_data_returns_self_data _ Hr _ _ H1).
Defined.

(** * Further properties of [probe] *)

(** X1 -- outcome of a call.  On every reachable Monitor, [probe] raises
    [IndexError] for a target whose shape is the empty tuple, whatever its
    class; otherwise, for a Var or an OutPort it returns normally when the
    binding of the tap is accepted and raises the binding's exception when
    it is rejected, and for any other class it raises [TypeError]. *)
Theorem probe_result m t num_steps :
  reachable m → fst (probe t num_steps m) = expected_result t.
Proof.
  intros Hr. apply reachable_Inv in Hr as (Hh & _). unfold expected_result.
  probe_paths m t num_steps Hh; simpl; rewrite ?Hk, ?Hk'; try done.
  by destruct (kind t).
Qed.

(** X1, at a Var whose binding is rejected, on a Monitor that has one
    probe. *)
Lemma probe_result_busy_var :
  let m := snd (probe var_A_u 5 init) in
  reachable m ∧ fst (probe var_A_u_busy 5 m) = expected_result var_A_u_busy.
Proof.
  assert (reachable (snd (probe var_A_u 5 init))) as Hr
    by apply reachable_probe, rtc_refl.
  split; [exact Hr|]. exact (probe_result _ var_A_u_busy 5 Hr).
Defined.

(** X2 -- what a successful call does to the result store.  After a
    successful [probe] the entry of the target holds the placeholder 0, it
    is the only entry under the target's process (the dictionary of the
    process is a new one), and the entries under every other process are
    as they were. *)
Theorem probe_result_store m t num_steps :
  reachable m → fst (probe t num_steps m) = Ok tt →
  let m' := snd (probe t num_steps m) in
  lookup2 m' (data m) (process_name t) (name t) = Some (VInt 0) ∧
  (∀ e, e ≠ name t → lookup2 m' (data m) (process_name t) e = None) ∧
  (∀ o e, o ≠ process_name t → lookup2 m' (data m) o e = lookup2 m (data m) o e).
Proof.
  intros Hr Hok. apply reachable_Inv in Hr as (Hh & _).
  assert (∀ m', data m' = data m → heap m' = heap_set m t
            (default ∅ (heap m !! data m)) →
    lookup2 m' (data m) (process_name t) (name t) = Some (VInt 0) ∧
    (∀ e, e ≠ name t → lookup2 m' (data m) (process_name t) e = None) ∧
    (∀ o e, o ≠ process_name t → lookup2 m' (data m) o e = lookup2 m (data m) o e))
    as Hgen.
  { intros m' Hd' Hh'. pose proof Hh as (Hlt & Hfresh & outer & Hd & Hvals).
    rewrite Hd in Hh'. simpl in Hh'. unfold lookup2. rewrite Hh'.
    rewrite !heap_set_data by done. rewrite lookup_insert_eq, heap_set_fresh.
    split; [by rewrite lookup_singleton_eq|]. split.
    - intros e He. by rewrite lookup_singleton_ne.
    - intros o e Ho. rewrite lookup_insert_ne by done. rewrite Hd.
      destruct (outer !! o) as [v|] eqn:Hov; [|done].
      destruct (Hvals o v Hov) as (l & -> & Hne & Hin).
      rewrite heap_set_old; [done|done|by apply Hfresh]. }
  destruct (probe_success m t num_steps Hh Hok)
    as (d0 & sh & outer & Hs & Hc & Hd & Hlt & [Hk|Hk]).
  - rewrite (probe_Var m t num_steps d0 sh outer) by done.
    apply Hgen; simpl; [done|by rewrite Hd].
  - rewrite (probe_OutPort m t num_steps d0 sh outer) by done.
    apply Hgen; simpl; [done|by rewrite Hd].
Qed.

(** X2, at the probe of a second Var of process ["A"]. *)
Lemma probe_result_store_second_var :
  let m := snd (probe var_A_u 5 init) in
  reachable m ∧ fst (probe var_A_v 5 m) = Ok tt ∧
  let m' := snd (probe var_A_v 5 m) in
  lookup2 m' (data m) (process_name var_A_v) (name var_A_v) = Some (VInt 0) ∧
  (∀ e, e ≠ name var_A_v → lookup2 m' (data m) (process_name var_A_v) e = None) ∧
  (∀ o e, o ≠ process_name var_A_v →
     lookup2 m' (data m) o e = lookup2 m (data m) o e).
Proof.
  assert (reachable (snd (probe var_A_u 5 init))) as Hr
    by apply rtc_once, step_probe.
  assert (fst (probe var_A_v 5 (snd (probe var_A_u 5 init))) = Ok tt) as Hok
    by (vm_compute; reflexivity).
  split; [exact Hr|]. split; [exact Hok|].
  exact (probe_result_store _ var_A_v 5 Hr Hok).
Defined.

(** X3 -- earlier probes are out of reach of later calls.  Whatever its
    outcome, a call of [probe] leaves the tap, the buffer (with the samples
    it holds) and the entry of [target_names] of every index below the
    counters as they were. *)
Theorem probe_keeps_attached m t num_steps :
  reachable m →
  let m' := snd (probe t num_steps m) in
  (∀ k, (k < n_ref m)%nat →
     members m' !! ref_port_ k = members m !! ref_port_ k ∧
     members m' !! var_read_ k = members m !! var_read_ k ∧
     target_names m' !! var_read_ k = target_names m !! var_read_ k) ∧
  (∀ k, (k < n_in m)%nat →
     members m' !! in_port_ k = members m !! in_port_ k ∧
     members m' !! out_read_ k = members m !! out_read_ k ∧
     target_names m' !! out_read_ k = target_names m !! out_read_ k).
Proof.
  intros Hr. apply reachable_Inv in Hr as (Hh & _).
  probe_paths m t num_steps Hh; simpl; split; intros k Hlk;
    rewrite ?lookup_insert_ne by names_ne;
    rewrite ?members_set_ref_port, ?members_set_var_read,
      ?members_set_in_port, ?members_set_out_read by done;
    done.
Qed.

(** X3, at a second probe after one Var was attached. *)
Lemma probe_keeps_attached_after_var :
  let m := snd (probe var_A_u 5 init) in
  reachable m ∧
  let m' := snd (probe var_A_v 5 m) in
  (∀ k, (k < n_ref m)%nat →
     members m' !! ref_port_ k = members m !! ref_port_ k ∧
     members m' !! var_read_ k = members m !! var_read_ k ∧
     target_names m' !! var_read_ k = target_names m !! var_read_ k) ∧
  (∀ k, (k < n_in m)%nat →
     members m' !! in_port_ k = members m !! in_port_ k ∧
     members m' !! out_read_ k = members m !! out_read_ k ∧
     target_names m' !! out_read_ k = target_names m !! out_read_ k).
Proof.
  assert (reachable (snd (probe var_A_u 5 init))) as Hr
    by apply rtc_once, step_probe.
  split; [exact Hr|].
  exact (probe_keeps_attached _ var_A_v 5 Hr).
Defined.

(** * Further invariants of the reachable states *)

Lemma engine_write_lookup m nm a x :
  members (engine_write nm a m) !! x =
    match members m !! x with
    | Some (Var sh i v) => Some (Var sh i (if decide (nm = x) then a else v))
    | o => o
    end.
Proof.
  unfold engine_write.
  destruct (members m !! nm) as [[| |sh i v]|] eqn:Hm;
    try (destruct (members m !! x) as [[]|] eqn:Hx; [done|done| |done];
         case_decide; [congruence|done]).
  simpl. destruct (decide (nm = x)) as [<-|Hne].
  - by rewrite lookup_insert_eq, Hm.
  - rewrite lookup_insert_ne by done. by destruct (members m !! x) as [[]|].
Qed.

(** The keys of [target_names] in a reachable state are buffer names of
    indices below the counters. *)
Lemma target_names_domain m :
  reachable m →
  ∀ nm, is_Some (target_names m !! nm) →
    (∃ k, (k < n_ref m)%nat ∧ nm = var_read_ k) ∨
    (∃ k, (k < n_in m)%nat ∧ nm = out_read_ k).
Proof.
  revert m.
  apply (reachable_ind (λ m, ∀ nm, is_Some (target_names m !! nm) →
    (∃ k, (k < n_ref m)%nat ∧ nm = var_read_ k) ∨
    (∃ k, (k < n_in m)%nat ∧ nm = out_read_ k))).
  - intros nm. change (target_names init) with (∅ : gmap string (string * string)).
    rewrite lookup_empty. by intros [].
  - intros m0 t n (Hh & _) Hkeys.
    probe_paths m0 t n Hh; simpl; intros nm;
      rewrite ?lookup_insert_is_Some'; intros Hnm;
      try (destruct Hnm as [<-|Hnm];
           [first [left; exists (n_ref m0); split; [lia|reflexivity]
                  |right; exists (n_in m0); split; [lia|reflexivity]]|]);
      (destruct (Hkeys nm Hnm) as [(k & ? & ->)|(k & ? & ->)];
       [left|right]; exists k; (split; [lia|done])).
  - intros m0 nm a _ HP. destruct (engine_write_fields m0 nm a) as (Hp & Ht & _).
    by rewrite Hp, Ht.
  - intros m0 (Hh & _) HP. destruct (get_data_fields m0 Hh) as (_ & Hp & Ht & _).
    by rewrite Hp, Ht.
Qed.

(** The buffer names at the two counters are not yet keys. *)
Lemma target_names_fresh m :
  reachable m →
  target_names m !! var_read_ (n_ref m) = None ∧
  target_names m !! out_read_ (n_in m) = None.
Proof.
  intros Hr. pose proof (target_names_domain m Hr) as Hkeys.
  split; apply eq_None_not_Some; intros Hin; apply Hkeys in Hin;
    destruct Hin as [(k & ? & Heq)|(k & ? & Heq)]; revert Heq; names_ne.
Qed.

Lemma registry_rows_snoc m m' :
  registry_rows m →
  RefPorts (proc_params m') = RefPorts (proc_params m) ++ [ref_port_ (n_ref m)] →
  VarsData1 (proc_params m') = VarsData1 (proc_params m) ++ [var_read_ (n_ref m)] →
  InPorts (proc_params m') = InPorts (proc_params m) ++ [in_port_ (n_in m)] →
  VarsData2 (proc_params m') = VarsData2 (proc_params m) ++ [out_read_ (n_in m)] →
  (n_ref m ≤ n_ref m')%nat → (n_in m ≤ n_in m')%nat →
  (n_ref m' + n_in m' ≤ S (n_ref m + n_in m))%nat →
  registry_rows m'.
Proof.
  intros (L1 & L2 & L3 & Hsum & Hrows) E1 E2 E3 E4 Hr Hi Hs.
  unfold registry_rows. simpl. rewrite E1, E2, E3, E4, !length_app. simpl.
  split; [lia|]. split; [lia|]. split; [lia|]. split; [lia|].
  intros i Hi'. destruct (decide (i < length (RefPorts (proc_params m)))%nat) as [Hlt|Hge].
  - destruct (Hrows i Hlt) as (k & j & H1 & H2 & H3 & H4 & ? & ? & ?).
    exists k, j. rewrite !lookup_app_l by lia. repeat split; (done || lia).
  - exists (n_ref m), (n_in m).
    rewrite !list_lookup_middle by lia. repeat split; lia.
Qed.

(** X5 -- the registry lists form a table.  In every reachable state the
    four lists of [proc_params] have the same length, the two counters
    add up to at most that length, and position [i] of the four lists
    holds ["ref_port_k"], ["var_read_k"], ["in_port_j"], ["out_read_j"] for
    one pair of numbers with [k + j ≤ i], [k] at most ["n_ref_ports"] and
    [j] at most ["n_in_ports"]. *)
Theorem registry_table m : reachable m → registry_rows m.
Proof.
  revert m. apply reachable_ind.
  - unfold registry_rows. simpl. repeat split; try lia.
  - intros m0 t n (Hh & _) HP.
    probe_paths m0 t n Hh; [exact HP|..];
      (eapply registry_rows_snoc; [exact HP|..]; simpl; (done || lia)).
  - intros m0 nm a _ HP. destruct (engine_write_fields m0 nm a) as (Hp & _).
    unfold registry_rows. by rewrite Hp.
  - intros m0 (Hh & _) HP. destruct (get_data_fields m0 Hh) as (_ & Hp & _).
    unfold registry_rows. by rewrite Hp.
Qed.

(** A call leaves the members and index entries below the counters alone. *)
Lemma probe_below m t n :
  heap_ok m →
  let m' := snd (probe t n m) in
  (∀ k, (k < n_ref m)%nat →
     members m' !! ref_port_ k = members m !! ref_port_ k ∧
     members m' !! var_read_ k = members m !! var_read_ k ∧
     target_names m' !! var_read_ k = target_names m !! var_read_ k) ∧
  (∀ k, (k < n_in m)%nat →
     members m' !! in_port_ k = members m !! in_port_ k ∧
     members m' !! out_read_ k = members m !! out_read_ k ∧
     target_names m' !! out_read_ k = target_names m !! out_read_ k).
Proof.
  intros Hh.
  probe_paths m t n Hh; simpl; split; intros k Hlk;
    rewrite ?lookup_insert_ne by names_ne;
    rewrite ?members_set_ref_port, ?members_set_var_read,
      ?members_set_in_port, ?members_set_out_read by done;
    done.
Qed.

(** X6 -- what an index below a counter stands for.  In every reachable
    state, for each [k] below ["n_ref_ports"]: if [target_names] has an
    entry for ["var_read_k"], there is a Var target such that
    ["ref_port_k"] is a RefPort of the target's shape connected to that
    target and to nothing else, ["var_read_k"] is a Var of shape
    [(target.shape[0], n)] with initial value 0, and the entry is the
    target's process and name; if it has none -- the binding of that
    probe was rejected after the counter had been advanced --
    ["ref_port_k"] is a RefPort connected to nothing.  The same holds for
    OutPort targets, ["in_port_k"] and ["out_read_k"] below
    ["n_in_ports"].  Engine writes change the samples only. *)
Theorem attached_probes_consistent m : reachable m → attached_ok m.
Proof.
  revert m. apply reachable_ind_r.
  - split; intros k Hk; simpl in Hk; lia.
  - intros m0 t n Hr0 [Hv Ho]. pose proof (reachable_Inv m0 Hr0) as (Hh & _).
    destruct (target_names_fresh m0 Hr0) as [Fv Fo].
    destruct (probe_below m0 t n Hh) as [Bv Bo].
    assert (∀ k, (k < n_ref m0)%nat →
      match target_names (snd (probe t n m0)) !! var_read_ k with
      | Some oe =>
          ∃ t0 d0 n0 a,
            kind t0 = KVar ∧ shape t0 !! 0%nat = Some d0 ∧
            members (snd (probe t n m0)) !! ref_port_ k = Some (RefPort (shape t0) [t0]) ∧
            members (snd (probe t n m0)) !! var_read_ k = Some (Var [d0; n0] 0 a) ∧
            oe = (process_name t0, name t0)
      | None => ∃ sh, members (snd (probe t n m0)) !! ref_port_ k = Some (RefPort sh [])
      end) as Hv'.
    { intros k Hk. destruct (Bv k Hk) as (-> & -> & ->). by apply Hv. }
    assert (∀ k, (k < n_in m0)%nat →
      match target_names (snd (probe t n m0)) !! out_read_ k with
      | Some oe =>
          ∃ t0 d0 n0 a,
            kind t0 = KOutPort ∧ shape t0 !! 0%nat = Some d0 ∧
            members (snd (probe t n m0)) !! in_port_ k = Some (InPort (shape t0) [t0]) ∧
            members (snd (probe t n m0)) !! out_read_ k = Some (Var [d0; n0] 0 a) ∧
            oe = (process_name t0, name t0)
      | None => ∃ sh, members (snd (probe t n m0)) !! in_port_ k = Some (InPort sh [])
      end) as Ho'.
    { intros k Hk. destruct (Bo k Hk) as (-> & -> & ->). by apply Ho. }
    clear Bv Bo Hv Ho. revert Hv' Ho'.
    probe_paths m0 t n Hh; simpl; intros Hv' Ho'.
    + by split.
    + split; [|exact Ho']. intros k Hkk. simpl in Hkk. simpl.
      destruct (decide (k = n_ref m0)) as [->|Hne]; [|apply Hv'; lia].
      rewrite lookup_insert_eq.
      exists t, d0, n, (full [d0; n] 0). rewrite Hs. simpl.
      rewrite lookup_insert_eq. rewrite lookup_insert_ne by names_ne.
      by rewrite members_set_new_var_read.
    + split; [|exact Ho']. intros k Hkk. simpl in Hkk. simpl.
      destruct (decide (k = n_ref m0)) as [->|Hne]; [|apply Hv'; lia].
      rewrite Fv. eexists. apply members_set_new_ref_port.
    + split; [exact Hv'|]. intros k Hkk. simpl in Hkk. simpl.
      destruct (decide (k = n_in m0)) as [->|Hne]; [|apply Ho'; lia].
      rewrite lookup_insert_eq.
      exists t, d0, n, (full [d0; n] 0). rewrite Hs. simpl.
      rewrite lookup_insert_eq. rewrite lookup_insert_ne by names_ne.
      by rewrite members_set_new_out_read.
    + split; [exact Hv'|]. intros k Hkk. simpl in Hkk. simpl.
      destruct (decide (k = n_in m0)) as [->|Hne]; [|apply Ho'; lia].
      rewrite Fo. eexists. apply members_set_new_in_port.
    + by split.
  - intros m0 nm a _ [Hv Ho].
    destruct (engine_write_fields m0 nm a) as (Hp & Ht & _).
    unfold attached_ok. rewrite Hp, Ht. split; intros k Hk.
    + specialize (Hv k Hk). destruct (target_names m0 !! var_read_ k) as [oe|].
      * destruct Hv as (t0 & d0 & n0 & a0 & ? & ? & Hr & Hb & ?).
        exists t0, d0, n0, (if decide (nm = var_read_ k) then a else a0).
        by rewrite !engine_write_lookup, Hr, Hb.
      * destruct Hv as (sh & Hr). exists sh. by rewrite engine_write_lookup, Hr.
    + specialize (Ho k Hk). destruct (target_names m0 !! out_read_ k) as [oe|].
      * destruct Ho as (t0 & d0 & n0 & a0 & ? & ? & Hr & Hb & ?).
        exists t0, d0, n0, (if decide (nm = out_read_ k) then a else a0).
        by rewrite !engine_write_lookup, Hr, Hb.
      * destruct Ho as (sh & Hr). exists sh. by rewrite engine_write_lookup, Hr.
  - intros m0 Hr0 HP.
    destruct (get_data_fields m0 (reachable_heap_ok m0 Hr0)) as (Hm & Hp & Ht & _).
    unfold attached_ok. by rewrite Hm, Hp, Ht.
Qed.

(** X4 -- the keys of the readout index.  In every reachable state every
    key of [target_names] is a buffer name ["var_read_k"] with [k] below
    ["n_ref_ports"] or ["out_read_k"] with [k] below ["n_in_ports"], and
    [target_names] has at most as many entries as the two counters add up
    to (a probe whose binding was rejected has advanced a counter and has
    no entry). *)
Theorem target_names_keys m : reachable m → index_keys m.
Proof.
  intros Hr. split; [by apply target_names_domain|].
  revert m Hr. apply reachable_ind_r.
  - done.
  - intros m0 t n Hr0 Hsize. pose proof (reachable_Inv m0 Hr0) as (Hh & _).
    destruct (target_names_fresh m0 Hr0) as [Fv Fo].
    probe_paths m0 t n Hh; simpl;
      rewrite ?map_size_insert_None by done; lia.
  - intros m0 nm a _ Hsize. destruct (engine_write_fields m0 nm a) as (Hp & Ht & _).
    by rewrite Hp, Ht.
  - intros m0 Hr0 Hsize.
    destruct (get_data_fields m0 (reachable_heap_ok m0 Hr0)) as (_ & Hp & Ht & _).
    by rewrite Hp, Ht.
Qed.

(** X4, after an accepted Var, a Var whose binding is rejected and a
    second accepted Var. *)
Lemma target_names_keys_after_rejection :
  let m := snd (probe var_C_v 3 (snd (probe var_A_u_busy 3 (snd (probe var_A_u 3 init))))) in
  reachable m ∧ index_keys m.
Proof.
  assert (reachable (snd (probe var_C_v 3
            (snd (probe var_A_u_busy 3 (snd (probe var_A_u 3 init))))))) as Hr
    by (do 3 apply reachable_probe; apply rtc_refl).
  split; [exact Hr|]. exact (target_names_keys _ Hr).
Defined.

(** X5, after an OutPort, a Var and a rejected InPort. *)
Lemma registry_table_after_three :
  let m := snd (probe in_B_a 1 (snd (probes [(out_B_s, 3); (var_A_u, 3)] init))) in
  reachable m ∧ registry_rows m.
Proof.
  assert (reachable (snd (probe in_B_a 1
            (snd (probes [(out_B_s, 3); (var_A_u, 3)] init))))) as Hr
    by (apply reachable_probe, reachable_probes, rtc_refl).
  split; [exact Hr|]. exact (registry_table _ Hr).
Defined.

(** X6, after a Var, a Var whose binding is rejected and an engine
    write. *)
Lemma attached_probes_consistent_after_rejection :
  let m := engine_write "var_read_0" six_samples
             (snd (probe var_A_u_busy 3 (snd (probe var_C_v 3 init)))) in
  reachable m ∧ attached_ok m.
Proof.
  assert (reachable (engine_write "var_read_0" six_samples
            (snd (probe var_A_u_busy 3 (snd (probe var_C_v 3 init)))))) as Hr.
  { eapply rtc_r; [do 2 apply reachable_probe; apply rtc_refl|apply step_write]. }
  split; [exact Hr|]. exact (attached_probes_consistent _ Hr).
Defined.

(** X7 -- what a successful call does to the registry.  A successful
    [probe] appends to the four lists the four names built from the
    counters as they were before the call, advances the counter of the
    target's kind by one and leaves the other, and adds to
    [target_names] one entry, under a key that was not in use: the buffer
    name of the target's kind. *)
Theorem probe_advances_registry m t num_steps :
  reachable m → fst (probe t num_steps m) = Ok tt →
  let m' := snd (probe t num_steps m) in
  let p := proc_params m in
  let p' := proc_params m' in
  RefPorts p' = RefPorts p ++ [ref_port_ (n_ref m)] ∧
  VarsData1 p' = VarsData1 p ++ [var_read_ (n_ref m)] ∧
  InPorts p' = InPorts p ++ [in_port_ (n_in m)] ∧
  VarsData2 p' = VarsData2 p ++ [out_read_ (n_in m)] ∧
  ((kind t = KVar ∧ n_ref m' = S (n_ref m) ∧ n_in m' = n_in m ∧
    target_names m !! var_read_ (n_ref m) = None ∧
    target_names m' =
      <[var_read_ (n_ref m) := (process_name t, name t)]> (target_names m))
   ∨
   (kind t = KOutPort ∧ n_ref m' = n_ref m ∧ n_in m' = S (n_in m) ∧
    target_names m !! out_read_ (n_in m) = None ∧
    target_names m' =
      <[out_read_ (n_in m) := (process_name t, name t)]> (target_names m))).
Proof.
  intros Hr Hok. destruct (target_names_fresh m Hr) as [Fv Fo].
  apply reachable_Inv in Hr as (Hh & _).
  destruct (probe_success m t num_steps Hh Hok)
    as (d0 & sh & outer & Hs & Hc & Hd & Hlt & [Hk|Hk]).
  - rewrite (probe_Var m t num_steps d0 sh outer) by done. simpl.
    repeat split. left. by repeat split.
  - rewrite (probe_OutPort m t num_steps d0 sh outer) by done. simpl.
    repeat split. right. by repeat split.
Qed.

(** X7, at the probe of a Var after an OutPort. *)
Lemma probe_advances_registry_var_after_out :
  let m := snd (probe out_B_s 3 init) in
  reachable m ∧ fst (probe var_A_u 3 m) = Ok tt ∧
  let m' := snd (probe var_A_u 3 m) in
  let p := proc_params m in
  let p' := proc_params m' in
  RefPorts p' = RefPorts p ++ [ref_port_ (n_ref m)] ∧
  VarsData1 p' = VarsData1 p ++ [var_read_ (n_ref m)] ∧
  InPorts p' = InPorts p ++ [in_port_ (n_in m)] ∧
  VarsData2 p' = VarsData2 p ++ [out_read_ (n_in m)] ∧
  ((kind var_A_u = KVar ∧ n_ref m' = S (n_ref m) ∧ n_in m' = n_in m ∧
    target_names m !! var_read_ (n_ref m) = None ∧
    target_names m' =
      <[var_read_ (n_ref m) := (process_name var_A_u, name var_A_u)]> (target_names m))
   ∨
   (kind var_A_u = KOutPort ∧ n_ref m' = n_ref m ∧ n_in m' = S (n_in m) ∧
    target_names m !! out_read_ (n_in m) = None ∧
    target_names m' =
      <[out_read_ (n_in m) := (process_name var_A_u, name var_A_u)]> (target_names m))).
Proof.
  assert (reachable (snd (probe out_B_s 3 init))) as Hr
    by apply reachable_probe, rtc_refl.
  assert (fst (probe var_A_u 3 (snd (probe out_B_s 3 init))) = Ok tt) as Hok
    by (vm_compute; reflexivity).
  split; [exact Hr|]. split; [exact Hok|].
  exact (probe_advances_registry _ var_A_u 3 Hr Hok).
Defined.

(** * The result of the readout *)















(** * Series of probes of one kind *)










(** * The attributes and what persists *)

(** Induction behind the naming scheme of the attributes. *)
Lemma members_named_reachable m : reachable m → members_named m.
Proof.
  revert m. apply reachable_ind.
  - intros nm obj.
    change (members init) with
      (<[out_read_ 0 := new_Var [1] 0]>
         (<[in_port_ 0 := new_InPort [1]]>
            (<[var_read_ 0 := new_Var [1] 0]>
               (<[ref_port_ 0 := new_RefPort [1]]> (∅ : gmap string Member))))).
    change (n_ref init) with 0%nat. change (n_in init) with 0%nat.
    rewrite !lookup_insert_Some, lookup_empty.
    intros [[<- <-]|[_ [[<- <-]|[_ [[<- <-]|[_ [[<- <-]|[_ ?]]]]]]]]; [..|done].
    + right. right. right. by eexists 0%nat, _, _, _.
    + right. right. left. by eexists 0%nat, _, _.
    + right. left. by eexists 0%nat, _, _, _.
    + left. by eexists 0%nat, _, _.
  - intros m0 t n (Hh & _) HP.
    assert (∀ nm obj d0, members_set m0 t n d0 !! nm = Some obj →
      (∃ k sh c, (k ≤ n_ref m0)%nat ∧ nm = ref_port_ k ∧ obj = RefPort sh c) ∨
      (∃ k sh i a, (k ≤ n_ref m0)%nat ∧ nm = var_read_ k ∧ obj = Var sh i a) ∨
      (∃ k sh c, (k ≤ n_in m0)%nat ∧ nm = in_port_ k ∧ obj = InPort sh c) ∨
      (∃ k sh i a, (k ≤ n_in m0)%nat ∧ nm = out_read_ k ∧ obj = Var sh i a)) as Hset.
    { intros nm obj d0. unfold members_set. rewrite !lookup_insert_Some.
      intros [[<- <-]|[_ [[<- <-]|[_ [[<- <-]|[_ [[<- <-]|[_ Hold]]]]]]]];
        [..|by apply HP].
      + right. right. right. by eexists _, _, _, _.
      + right. right. left. by eexists _, _, _.
      + right. left. by eexists _, _, _, _.
      + left. by eexists _, _, _. }
    assert (∀ m', n_ref m0 ≤ n_ref m' → n_in m0 ≤ n_in m' →
      (∀ nm obj, members m' !! nm = Some obj →
        (∃ k sh c, (k ≤ n_ref m0)%nat ∧ nm = ref_port_ k ∧ obj = RefPort sh c) ∨
        (∃ k sh i a, (k ≤ n_ref m0)%nat ∧ nm = var_read_ k ∧ obj = Var sh i a) ∨
        (∃ k sh c, (k ≤ n_in m0)%nat ∧ nm = in_port_ k ∧ obj = InPort sh c) ∨
        (∃ k sh i a, (k ≤ n_in m0)%nat ∧ nm = out_read_ k ∧ obj = Var sh i a)) →
      members_named m')%nat as Hweak.
    { intros m' Lr Li H nm obj Hm.
      destruct (H nm obj Hm) as [(k & ? & ? & ? & ?)|[(k & ? & ? & ? & ? & ?)|
        [(k & ? & ? & ? & ?)|(k & ? & ? & ? & ? & ?)]]];
        [left; exists k; eexists _, _
        |right; left; exists k; eexists _, _, _
        |right; right; left; exists k; eexists _, _
        |right; right; right; exists k; eexists _, _, _];
        (split; [lia|done]). }
    probe_paths m0 t n Hh; apply Hweak; simpl; try lia.
    + intros nm obj. rewrite lookup_insert_Some. intros [[<- <-]|[_ Hold]]; [|by apply HP].
      left. by eexists _, _, _.
    + intros nm obj. rewrite lookup_insert_Some. intros [[<- <-]|[_ Hold]]; [|by eapply Hset].
      left. by eexists _, _, _.
    + intros nm obj. by apply Hset.
    + intros nm obj. rewrite lookup_insert_Some. intros [[<- <-]|[_ Hold]]; [|by eapply Hset].
      right. right. left. by eexists _, _, _.
    + intros nm obj. by apply Hset.
    + intros nm obj. by apply Hset.
  - intros m0 nm a _ HP x obj. rewrite engine_write_lookup.
    destruct (engine_write_fields m0 nm a) as (-> & _).
    destruct (members m0 !! x) as [obj0|] eqn:Hx; [|done].
    destruct (HP x obj0 Hx) as [(k & ? & ? & ? & ? & ->)|[(k & ? & ? & ? & ? & ? & ->)|
        [(k & ? & ? & ? & ? & ->)|(k & ? & ? & ? & ? & ? & ->)]]]; intros [= <-].
    + left. by eexists _, _, _.
    + right. left. by eexists _, _, _, _.
    + right. right. left. by eexists _, _, _.
    + right. right. right. by eexists _, _, _, _.
  - intros m0 (Hh & _) HP. destruct (get_data_fields m0 Hh) as (Hm & Hp & _).
    unfold members_named. by rewrite Hm, Hp.
Qed.



(** One step never lowers a counter. *)
Lemma step_counters m m' :
  Inv m → step m m' → (n_ref m ≤ n_ref m')%nat ∧ (n_in m ≤ n_in m')%nat.
Proof.
  intros HI Hs. destruct Hs as [m t n|m nm a|m].
  - destruct HI as (Hh & _). probe_paths m t n Hh; simpl; lia.
  - destruct (engine_write_fields m nm a) as (-> & _). lia.
  - destruct (get_data_fields m (proj1 HI)) as (_ & -> & _). lia.
Qed.

(** X12 -- what is attached stays attached.  From a reachable state on,
    whatever calls and engine writes follow: the counters do not go down;
    every entry of [target_names] keeps its value; every attached port
    (index below its counter) stays the same object with the same
    connection; and every attached buffer stays a Var of the same shape
    and initial value -- only its samples can change. *)
Theorem attachments_persist m m' :
  reachable m → rtc step m m' →
  (n_ref m ≤ n_ref m')%nat ∧ (n_in m ≤ n_in m')%nat ∧
  (∀ nm oe, target_names m !! nm = Some oe → target_names m' !! nm = Some oe) ∧
  (∀ k, (k < n_ref m)%nat → members m' !! ref_port_ k = members m !! ref_port_ k) ∧
  (∀ k, (k < n_in m)%nat → members m' !! in_port_ k = members m !! in_port_ k) ∧
  (∀ k sh i a, (k < n_ref m)%nat → members m !! var_read_ k = Some (Var sh i a) →
     ∃ a', members m' !! var_read_ k = Some (Var sh i a')) ∧
  (∀ k sh i a, (k < n_in m)%nat → members m !! out_read_ k = Some (Var sh i a) →
     ∃ a', members m' !! out_read_ k = Some (Var sh i a')).
Proof.
  intros Hr Hsteps. revert m' Hsteps. apply rtc_ind_r.
  { repeat split; try done; eauto. }
  intros m1 m2 Hsteps Hs (Lr & Li & Ht & Pr & Pi & Bv & Bo).
  assert (reachable m1) as Hr1 by (unfold reachable; etrans; eassumption).
  pose proof (reachable_Inv m1 Hr1) as HI1.
  destruct (step_counters m1 m2 HI1 Hs) as [Lr' Li'].
  pose proof (members_named_reachable m Hr) as Hnamed.
  split; [lia|]. split; [lia|].
  destruct Hs as [m1 t n|m1 nm a|m1].
  - destruct (probe_below m1 t n (proj1 HI1)) as [Kv Ko].
    destruct (target_names_fresh m1 Hr1) as [Fv Fo].
    split; [|split; [|split; [|split]]].
    + intros nm oe Hnm. apply Ht in Hnm. revert Hnm. clear -Fv Fo HI1.
      destruct HI1 as (Hh & _).
      probe_paths m1 t n Hh; simpl; try done; intros Hnm;
        rewrite lookup_insert_ne; (done || congruence).
    + intros k Hk. destruct (Kv k) as (-> & _); [lia|]. by apply Pr.
    + intros k Hk. destruct (Ko k) as (-> & _); [lia|]. by apply Pi.
    + intros k sh i a Hk Hm. destruct (Kv k) as (_ & -> & _); [lia|]. by eapply Bv.
    + intros k sh i a Hk Hm. destruct (Ko k) as (_ & -> & _); [lia|]. by eapply Bo.
  - destruct (engine_write_fields m1 nm a) as (_ & -> & _).
    split; [done|]. split; [|split; [|split]].
    + intros k Hk. rewrite engine_write_lookup, (Pr k Hk).
      destruct (members m !! ref_port_ k) as [obj|] eqn:Hm; [|done].
      destruct (Hnamed _ _ Hm) as [(? & ? & ? & _ & _ & ->)|[(? & ? & ? & ? & _ & Hn & _)|
        [(? & ? & ? & _ & Hn & _)|(? & ? & ? & ? & _ & Hn & _)]]];
        [done|..]; revert Hn; names_ne.
    + intros k Hk. rewrite engine_write_lookup, (Pi k Hk).
      destruct (members m !! in_port_ k) as [obj|] eqn:Hm; [|done].
      destruct (Hnamed _ _ Hm) as [(? & ? & ? & _ & Hn & _)|[(? & ? & ? & ? & _ & Hn & _)|
        [(? & ? & ? & _ & _ & ->)|(? & ? & ? & ? & _ & Hn & _)]]];
        [|..|done|]; revert Hn; names_ne.
    + intros k sh i a0 Hk Hm. destruct (Bv k sh i a0 Hk Hm) as [a' Ha'].
      rewrite engine_write_lookup, Ha'. eauto.
    + intros k sh i a0 Hk Hm. destruct (Bo k sh i a0 Hk Hm) as [a' Ha'].
      rewrite engine_write_lookup, Ha'. eauto.
  - destruct (get_data_fields m1 (proj1 HI1)) as (-> & _ & -> & _).
    by repeat split.
Qed.

(** X12, from one attached Var through a second probe and a readout. *)
Lemma attachments_persist_after_var :
  let m := snd (probe var_A_u 5 init) in
  let m' := snd (get_data (snd (probe out_B_s 3 m))) in
  reachable m ∧ rtc step m m' ∧
  (n_ref m ≤ n_ref m')%nat ∧ (n_in m ≤ n_in m')%nat ∧
  (∀ nm oe, target_names m !! nm = Some oe → target_names m' !! nm = Some oe) ∧
  (∀ k, (k < n_ref m)%nat → members m' !! ref_port_ k = members m !! ref_port_ k) ∧
  (∀ k, (k < n_in m)%nat → members m' !! in_port_ k = members m !! in_port_ k) ∧
  (∀ k sh i a, (k < n_ref m)%nat → members m !! var_read_ k = Some (Var sh i a) →
     ∃ a', members m' !! var_read_ k = Some (Var sh i a')) ∧
  (∀ k sh i a, (k < n_in m)%nat → members m !! out_read_ k = Some (Var sh i a) →
     ∃ a', members m' !! out_read_ k = Some (Var sh i a')).
Proof.
  assert (reachable (snd (probe var_A_u 5 init))) as Hr
    by apply reachable_probe, rtc_refl.
  assert (rtc step (snd (probe var_A_u 5 init))
            (snd (get_data (snd (probe out_B_s 3 (snd (probe var_A_u 5 init))))))) as Hs.
  { eapply rtc_l; [apply step_probe|]. apply rtc_once, step_get_data. }
  split; [exact Hr|]. split; [exact Hs|].
  exact (attachments_persist _ _ Hr Hs).
Defined.
